(** * The IPTV playlist scraper ([.github/workflows/scraper.py])

    A shallow embedding of the scraper's pipeline
    (fetch, regex extraction, formatting, writing) and the properties its
    specification states about it.

    Python values are modelled as follows.
    - [str]: a list of Unicode code points ([N]); comparison of two [str]
      is code-point lexicographic, as in Python.
    - [set[str]]: stdpp's [gset]; [sorted] is a merge sort for the
      code-point order (the sorted list of a set is unique, so the
      sorting algorithm does not show).
    - compiled regular expressions: a small syntax tree with a
      backtracking matcher that tries alternatives in the order of
      Python's [re] (greedy repetition, leftmost alternative first).
    - exceptions: an [outcome] is either a returned value or a raised
      exception; effectful functions pass their state explicitly.
    - the network and BeautifulSoup's text rendering are not part of the
      program: they are parameters of the development. The rendering is
      taken to be a function of the page that always returns. *)

From Stdlib Require Import NArith ZArith String Ascii DecimalString Lia.
From stdpp Require Import base decidable option list sorting gmap.

Local Open Scope N_scope.

(** ** Strings *)

(** A Python [str] is a sequence of code points. *)
Abbreviation char := N (only parsing).
Abbreviation str := (list N) (only parsing).

(** The code points of a literal of the program text. *)
Definition py (x : string) : str := N_of_ascii <$> list_ascii_of_string x.
Arguments py x%_string.

(** The characters the program names by an escape. *)
Definition NL : char := 10.
Definition QUOTE : char := 39.
Definition DQUOTE : char := 34.

(** [s <= t] on Python strings. *)
Fixpoint str_leb (s t : str) : bool :=
  match s, t with
  | [], _ => true
  | _ :: _, [] => false
  | a :: s', b :: t' =>
      if a <? b then true else if a =? b then str_leb s' t' else false
  end.

Definition str_le (s t : str) : Prop := str_leb s t = true.

#[global] Instance str_le_dec : RelDecision str_le.
Proof. intros s t. unfold str_le. apply _. Defined.

(** [sorted(xs)] for a collection of strings. *)
Definition sorted (xs : list str) : list str := merge_sort str_le xs.

(** [sep.join(xs)]. *)
Fixpoint join (sep : str) (xs : list str) : str :=
  match xs with
  | [] => []
  | [x] => x
  | x :: rest => x ++ sep ++ join sep rest
  end.

(** [str(n)] for a non-negative [int]. *)
Definition str_of_int (n : nat) : str :=
  py (NilEmpty.string_of_uint (Nat.to_uint n)).

(** ** Regular expressions *)

(** The constructs the two patterns of the program use. [Chr p] is one
    character of the set [p] (a literal, or a bracketed set); [Rep p] is
    the greedy repetition [p*] of a one-character set. *)
Inductive regex : Type :=
  | Eps
  | Chr (p : char -> bool)
  | Cat (r1 r2 : regex)
  | Alt (r1 r2 : regex)
  | Opt (r : regex)
  | Rep (p : char -> bool).

(** Greedy [p*]: take as many characters as possible, and give them back
    one at a time while the rest of the pattern fails. *)
Fixpoint rep (p : char -> bool) (s : str) (k : str -> option str) : option str :=
  match s with
  | c :: s' =>
      if p c then
        match rep p s' k with
        | Some m => Some (c :: m)
        | None => k s
        end
      else k s
  | [] => k s
  end.

(** The backtracking matcher. [bt r s k] matches [r] at the start of
    [s], then the rest of the pattern, [k], on what is left; it returns
    the text matched by [r] followed by the text matched by [k], for the
    first way to match in the order Python tries them. *)
Fixpoint bt (r : regex) (s : str) (k : str -> option str) : option str :=
  match r with
  | Eps => k s
  | Chr p =>
      match s with
      | c :: s' => if p c then cons c <$> k s' else None
      | [] => None
      end
  | Cat r1 r2 => bt r1 s (fun s' => bt r2 s' k)
  | Alt r1 r2 =>
      match bt r1 s k with
      | Some m => Some m
      | None => bt r2 s k
      end
  | Opt r1 =>
      match bt r1 s k with
      | Some m => Some m
      | None => k s
      end
  | Rep p => rep p s k
  end.

(** The match of [r] that starts at the first character of [s]. *)
Definition match_at (r : regex) (s : str) : option str :=
  bt r s (fun _ => Some []).

(** The scan of [pattern.findall(text)]: [skip] is the number of
    characters still covered by the last match. The search resumes where
    a match ends, so matches do not overlap. *)
Fixpoint scan (r : regex) (skip : nat) (s : str) {struct s} : list str :=
  match skip with
  | S n =>
      match s with
      | [] => []
      | _ :: s' => scan r n s'
      end
  | O =>
      match match_at r s with
      | Some m =>
          m :: match s with
               | [] => []
               | _ :: s' => scan r (pred (length m)) s'
               end
      | None =>
          match s with
          | [] => []
          | _ :: s' => scan r 0 s'
          end
      end
  end.

Definition findall (pattern : regex) (text : str) : list str :=
  scan pattern 0 text.

(** What a regular expression denotes: the strings it matches in full. *)
Fixpoint lang (r : regex) (m : str) : Prop :=
  match r with
  | Eps => m = []
  | Chr p => exists c, m = [c] /\ p c = true
  | Cat r1 r2 => exists m1 m2, m = m1 ++ m2 /\ lang r1 m1 /\ lang r2 m2
  | Alt r1 r2 => lang r1 m \/ lang r2 m
  | Opt r1 => m = [] \/ lang r1 m
  | Rep p => Forall (fun c => p c = true) m
  end.

(** ** The patterns *)

(** [\s] on a [str] pattern: the code points for which [str.isspace]
    holds. *)
Definition is_space (c : char) : bool :=
  ((9 <=? c) && (c <=? 13)) || ((28 <=? c) && (c <=? 32))
  || (c =? 133) || (c =? 160) || (c =? 5760)
  || ((8192 <=? c) && (c <=? 8202))
  || (c =? 8232) || (c =? 8233) || (c =? 8239) || (c =? 8287) || (c =? 12288).

(** The bracketed set of the patterns: any character that is neither
    white space, nor a single quote, nor a double quote. *)
Definition url_char (c : char) : bool :=
  negb (is_space c || (c =? QUOTE) || (c =? DQUOTE)).

(** The simple lower-case mapping of a code point, on the code points
    whose lower case is an ASCII letter: the capital letters, U+0130
    (capital I with dot) and U+212A (the Kelvin sign). Every other cased
    code point maps outside ASCII, where no literal of the patterns
    lives, and is left in place. *)
Definition unicode_tolower (c : char) : char :=
  if (65 <=? c) && (c <=? 90) then c + 32
  else if c =? 304 then 105
  else if c =? 8490 then 107
  else c.

Definition iscased (c : char) : bool :=
  ((65 <=? c) && (c <=? 90)) || ((97 <=? c) && (c <=? 122)).

(** The lower-case letters that share an upper case with another one:
    [i] with the dotless i (U+0131), [s] with the long s (U+017F). *)
Definition ignorecase_fixes (lo : char) : list char :=
  if lo =? 105 then [305] else if lo =? 115 then [383] else [].

(** A literal of a pattern compiled with [re.IGNORECASE]: a character
    without case matches itself; a letter matches the characters whose
    lower case is the letter or one of its fixes. *)
Definition literal (c : char) : char -> bool :=
  if iscased c then
    let lo := unicode_tolower c in
    fun ch => bool_decide (unicode_tolower ch ∈ lo :: ignorecase_fixes lo)
  else fun ch => ch =? c.

(** A run of literals. *)
Definition lit (x : string) : regex :=
  foldr (fun c r => Cat (Chr (literal c)) r) Eps (py x).
Arguments lit x%_string.

(** The common head of the two patterns: [http], an optional [s],
    [://], then one or more characters of the set. *)
Definition url_head (rest : regex) : regex :=
  Cat (lit "http") (Cat (Opt (lit "s")) (Cat (lit "://")
    (Cat (Chr url_char) (Cat (Rep url_char) rest)))).

(** The first pattern: the head, the literal [.m3u8], then any number
    of characters of the set. *)
Definition pattern_m3u8 : regex :=
  url_head (Cat (lit ".m3u8") (Rep url_char)).

(** The second pattern: the head, [/], then [stream] or [live], then
    any number of characters of the set. *)
Definition pattern_segment : regex :=
  url_head (Cat (lit "/") (Cat (Alt (lit "stream") (lit "live")) (Rep url_char))).

Definition STREAM_LINK_PATTERNS : list regex := [pattern_m3u8; pattern_segment].

(** ** Sources *)

Record Source : Type := { name : str; url : str }.

Definition SOURCES : list Source :=
  [ {| name := py "Toffee"; url := py "https://toffeelive.com/en/live" |};
    {| name := py "Bongo"; url := py "https://example.com/bongo" |} ].

Definition PLAYLIST_PATH : str := py "playlist.m3u".

(** ** Exceptions and effects *)

Inductive exn : Type :=
  | ConnectionError
  | Timeout
  | TooManyRedirects
  | HTTPError (status_code : Z)
  | UnicodeEncodeError
  | UnicodeDecodeError
  | FileNotFoundError.

(** What a call does: it returns a value or raises. *)
Inductive outcome (A : Type) : Type :=
  | Returns (a : A)
  | Raises (e : exn).
Arguments Returns {A} a.
Arguments Raises {A} e.

(** A computation over a state [St]: the outcome and the state after. *)
Definition M (St A : Type) : Type := St -> outcome A * St.

Definition ret {St A} (a : A) : M St A := fun st => (Returns a, st).

Definition bind {St A B} (c : M St A) (k : A -> M St B) : M St B :=
  fun st =>
    match c st with
    | (Returns a, st') => k a st'
    | (Raises e, st') => (Raises e, st')
    end.

Notation "'let*' x ':=' c 'in' k" := (bind c (fun x => k))
  (at level 10, x pattern, c at level 100, k at level 200).

(** A pure call that may raise, inside a computation. *)
Definition lift {St A} (o : outcome A) : M St A := fun st => (o, st).

(** ** The HTTP response *)

Record Response : Type := { status_code : Z; text : str }.

(** [Response.raise_for_status] raises [HTTPError] for a client error
    (4xx) or a server error (5xx), and returns for every other status. *)
Definition raise_for_status (response : Response) : outcome unit :=
  if ((400 <=? status_code response) && (status_code response <? 600))%Z
  then Raises (HTTPError (status_code response))
  else Returns tt.

(** ** The file system *)

Abbreviation bytes := (list N) (only parsing).

(** The files of the disk, by path. *)
Abbreviation filesystem := (gmap (list N) (list N)) (only parsing).

(** [str.encode] for UTF-8, one code point. A surrogate has no
    encoding. *)
Definition utf8_encode_char (c : char) : option bytes :=
  if c <? 128 then Some [c]
  else if c <? 2048 then Some [192 + c / 64; 128 + c mod 64]
  else if (55296 <=? c) && (c <=? 57343) then None
  else if c <? 65536 then
    Some [224 + c / 4096; 128 + (c / 64) mod 64; 128 + c mod 64]
  else if c <? 1114112 then
    Some [240 + c / 262144; 128 + (c / 4096) mod 64;
          128 + (c / 64) mod 64; 128 + c mod 64]
  else None.

Fixpoint utf8_encode (s : str) : option bytes :=
  match s with
  | [] => Some []
  | c :: s' =>
      match utf8_encode_char c, utf8_encode s' with
      | Some b, Some bs => Some (b ++ bs)
      | _, _ => None
      end
  end.

Definition continuation (b : N) : bool := (128 <=? b) && (b <? 192).

(** [bytes.decode] for UTF-8, strict: no overlong form, no surrogate,
    nothing above U+10FFFF. *)
Fixpoint utf8_decode (bs : bytes) : option str :=
  match bs with
  | [] => Some []
  | b0 :: rest =>
      if b0 <? 128 then cons b0 <$> utf8_decode rest
      else if (194 <=? b0) && (b0 <? 224) then
        match rest with
        | b1 :: rest1 =>
            if continuation b1
            then cons ((b0 - 192) * 64 + (b1 - 128)) <$> utf8_decode rest1
            else None
        | _ => None
        end
      else if (224 <=? b0) && (b0 <? 240) then
        match rest with
        | b1 :: b2 :: rest2 =>
            let c := (b0 - 224) * 4096 + (b1 - 128) * 64 + (b2 - 128) in
            if continuation b1 && continuation b2 && (2048 <=? c)
               && negb ((55296 <=? c) && (c <=? 57343))
            then cons c <$> utf8_decode rest2
            else None
        | _ => None
        end
      else if (240 <=? b0) && (b0 <? 245) then
        match rest with
        | b1 :: b2 :: b3 :: rest3 =>
            let c := (b0 - 240) * 262144 + (b1 - 128) * 4096
                     + (b2 - 128) * 64 + (b3 - 128) in
            if continuation b1 && continuation b2 && continuation b3
               && (65536 <=? c) && (c <? 1114112)
            then cons c <$> utf8_decode rest3
            else None
        | _ => None
        end
      else None
  end.

(** [Path.write_text(data, encoding=utf-8)]: the file is opened for
    writing, which creates it or empties it, then the encoded text is
    written. Text that cannot be encoded raises after the file was
    emptied. (Line endings are written as they are, as on POSIX.) *)
Definition write_text (path : str) (data : str) : M filesystem unit :=
  fun disk =>
    match utf8_encode data with
    | Some content => (Returns tt, <[path := content]> disk)
    | None => (Raises UnicodeEncodeError, <[path := []]> disk)
    end.

Definition CR : char := 13.

(** What a file opened for reading in text mode does to the line endings
    (the default, [newline=None]): a carriage return followed by a line
    feed, and a carriage return alone, are both read as one line feed. *)
Fixpoint universal_newlines (s : str) : str :=
  match s with
  | [] => []
  | c :: s' =>
      if c =? CR then
        NL :: match s' with
              | d :: s'' =>
                  if d =? NL then universal_newlines s''
                  else universal_newlines s'
              | [] => []
              end
      else c :: universal_newlines s'
  end.

(** [Path.read_text(encoding=utf-8)]: the content is decoded, and the
    line endings are translated as a file opened in text mode does. *)
Definition read_text (path : str) : M filesystem str :=
  fun disk =>
    match disk !! path with
    | None => (Raises FileNotFoundError, disk)
    | Some content =>
        match utf8_decode content with
        | Some data => (Returns (universal_newlines data), disk)
        | None => (Raises UnicodeDecodeError, disk)
        end
    end.

(** ** The scraper *)

(** [enumerate(xs, start)]. *)
Definition enumerate {A} (xs : list A) (start : nat) : list (nat * A) :=
  zip (seq start (length xs)) xs.

Definition format_playlist_entry (name url : str) : str :=
  py "#EXTINF:-1, " ++ name ++ [NL] ++ url.

Definition save_playlist (entries : list str) (path : str) : M filesystem unit :=
  write_text path (join [NL] entries ++ [NL]).

(** The entries [build_playlist] appends for one source, from the links
    of its page. *)
Definition entries_of (source : Source) (links : list str) : list str :=
  (fun '(index, link) =>
     format_playlist_entry (name source ++ py " " ++ str_of_int index) link)
  <$> enumerate links 1.

Section Scraper.

(** The network: its state, and what [requests.get(url, timeout)] does
    in a state. *)
Context {World : Type}.
Variable requests_get : str -> Z -> M World Response.

(** [BeautifulSoup(html, html.parser).get_text(sep)]: the text of the
    page without its markup, the text nodes joined by [sep]. *)
Variable get_text : str -> str -> str.

Definition fetch_html (url : str) (timeout : Z) : M World str :=
  let* response := requests_get url timeout in
  let* _ := lift (raise_for_status response) in
  ret (text response).

(** The links the loops of [extract_stream_links] add to the set, in the
    order they find them. *)
Definition found_links (html : str) : list str :=
  let text_sources := [html; get_text html (py " ")] in
  text ← text_sources; pattern ← STREAM_LINK_PATTERNS; findall pattern text.

Definition extract_stream_links (html : str) : list str :=
  let text_sources := [html; get_text html (py " ")] in
  let links : gset (list N) :=
    foldl (fun links text =>
             foldl (fun links pattern => links ∪ list_to_set (findall pattern text))
                   links STREAM_LINK_PATTERNS)
          ∅ text_sources in
  sorted (elements links).

Definition extract_links (self : Source) (html : str) : list str :=
  extract_stream_links html.

(** The body of the loop over the sources of [build_playlist]. *)
Fixpoint build_loop (sources : list Source) (entries : list str)
    : M World (list str) :=
  match sources with
  | [] => ret entries
  | source :: rest =>
      let* html := fetch_html (url source) 20 in
      let links := extract_links source html in
      let entries :=
        foldl (fun entries '(index, link) =>
                 let channel_name := name source ++ py " " ++ str_of_int index in
                 entries ++ [format_playlist_entry channel_name link])
              entries (enumerate links 1) in
      build_loop rest entries
  end.

Definition build_playlist (sources : list Source) : M World (list str) :=
  build_loop sources [py "#EXTM3U"].

(** The pages the loop of [build_playlist] gets for the sources, fetched
    one after the other from the state [w] of the network. *)
Inductive pages : list Source -> World -> list (list N) -> World -> Prop :=
  | pages_nil w : pages [] w [] w
  | pages_cons source rest w html w1 htmls w2 :
      fetch_html (url source) 20 w = (Returns html, w1) ->
      pages rest w1 htmls w2 ->
      pages (source :: rest) w (html :: htmls) w2.

(** The entries [build_playlist] makes of the pages of the sources. *)
Definition built (sources : list Source) (htmls : list (list N)) : list (list N) :=
  mjoin (zip_with (fun source html => entries_of source (extract_links source html))
                  sources htmls).

(** The process runs over the network and the disk. *)
Definition on_network {A} (c : M World A) : M (World * filesystem) A :=
  fun '(w, disk) => let '(o, w') := c w in (o, (w', disk)).

Definition on_disk {A} (c : M filesystem A) : M (World * filesystem) A :=
  fun '(w, disk) => let '(o, disk') := c disk in (o, (w, disk')).

Definition main : M (World * filesystem) unit :=
  let* entries := on_network (build_playlist SOURCES) in
  on_disk (save_playlist entries PLAYLIST_PATH).

End Scraper.

(** ** Vocabulary of the specification *)

(** A piece of a text: some characters before it, some after. *)
Definition substring (m s : str) : Prop := exists pre post, s = pre ++ m ++ post.

(** A text made of characters of the bracketed set only. *)
Definition url_text (m : str) : Prop := Forall (fun c => url_char c = true) m.

(** [m] is the literal [x], up to the case of its letters as
    [re.IGNORECASE] reads it. *)
Definition ignoring_case (x : string) (m : str) : Prop :=
  Forall2 (fun c ch => literal c ch = true) (py x) m.
Arguments ignoring_case x%_string m.

Definition is_scheme (m : str) : Prop :=
  ignoring_case "http://" m \/ ignoring_case "https://" m.

(** The first shape of a link: a scheme, a non-empty run of characters,
    [.m3u8], and whatever characters follow. *)
Definition shape_m3u8 (l : str) : Prop :=
  exists scheme host ext tail,
    l = scheme ++ host ++ ext ++ tail /\ is_scheme scheme
    /\ host <> [] /\ url_text host
    /\ ignoring_case ".m3u8" ext /\ url_text tail.

(** The second shape: a scheme, a non-empty run of characters, [/stream]
    or [/live], and whatever characters follow. *)
Definition shape_segment (l : str) : Prop :=
  exists scheme host seg tail,
    l = scheme ++ host ++ seg ++ tail /\ is_scheme scheme
    /\ host <> [] /\ url_text host
    /\ (ignoring_case "/stream" seg \/ ignoring_case "/live" seg)
    /\ url_text tail.

(** No piece of the text is matched by a pattern of the program. *)
Definition no_match (text : str) : Prop :=
  forall pattern m,
    pattern ∈ STREAM_LINK_PATTERNS -> substring m text -> ~ lang pattern m.

(** The runs of characters of the bracketed set of a text: what is left
    between white space and quotes. *)
Fixpoint tokens (s : str) : list str :=
  match s with
  | [] => [[]]
  | c :: s' =>
      if url_char c then
        match tokens s' with
        | t :: ts => (c :: t) :: ts
        | [] => [[c]]
        end
      else [] :: tokens s'
  end.

(** A regular expression whose characters all belong to the bracketed
    set: a match never holds white space or a quote. *)
Fixpoint tight (r : regex) : Prop :=
  match r with
  | Eps => True
  | Chr p | Rep p => forall c, p c = true -> url_char c = true
  | Cat r1 r2 | Alt r1 r2 => tight r1 /\ tight r2
  | Opt r1 => tight r1
  end.

(** A visible ASCII character other than the two quotes. *)
Definition plain (c : char) : bool :=
  (33 <=? c) && (c <=? 126) && negb (c =? QUOTE) && negb (c =? DQUOTE).

(** The number of line feeds of a text. *)
Definition newlines (s : str) : nat := length (filter (fun c => c = NL) s).

(** The two links of the pattern-coverage example. *)
Definition LINK_A : str := py "https://cdn.example/a.m3u8?x=1".
Definition LINK_B : str := py "https://cdn.example/live/chan2".

(** ** Concrete surroundings, to run the program on examples *)

(** A network in which each URL of a table always gives the same answer,
    and any other URL is unreachable. *)
Definition served (site : list (list N * outcome Response))
    : str -> Z -> M unit Response :=
  fun url _ w =>
    (match list_find (fun entry => entry.1 = url) site with
     | Some (_, (_, answer)) => answer
     | None => Raises ConnectionError
     end, w).

Definition ok (body : str) : outcome Response :=
  Returns {| status_code := 200; text := body |}.

(** Modelled from the spec: BeautifulSoup is a library the program
    imports, and the specification describes its rendering as the plain
    text of the page with markup tags stripped, joined by white space.
    The text outside the tags is cut at every tag; the pieces that are
    not empty are joined by the separator. *)
Fixpoint text_nodes (in_tag : bool) (s : str) : list str :=
  match s with
  | [] => [[]]
  | c :: s' =>
      if in_tag then text_nodes (negb (c =? 62)) s'
      else if c =? 60 then [] :: text_nodes true s'
      else
        match text_nodes false s' with
        | node :: nodes => (c :: node) :: nodes
        | [] => [[c]]
        end
  end.

(** Modelled from the spec: the rendering of a page, for the examples
    below (pages without character references, comments or scripts). *)
Definition strip_markup (html sep : str) : str :=
  join sep (filter (fun node => node <> []) (text_nodes false html)).

(** [seg] is a whole segment of a URL: it stands after a slash and ends
    at the next slash, at a question mark, at a hash sign or at the end
    (letters compared as the patterns compare them). *)
Fixpoint segment_here (seg l : str) : bool :=
  match seg, l with
  | [], [] => true
  | [], c :: _ => (c =? 47) || (c =? 63) || (c =? 35)
  | s :: seg', c :: l' => literal s c && segment_here seg' l'
  | _ :: _, [] => false
  end.

Fixpoint path_segment (seg l : str) : bool :=
  match l with
  | [] => false
  | c :: l' => ((c =? 47) && segment_here seg l') || path_segment seg l'
  end.

(** Pages and sources of the examples. *)
Definition FIRST : str := py "http://x/1.m3u8".
Definition SECOND : str := py "http://x/2.m3u8".

Definition SOURCE_A : Source := {| name := py "A"; url := py "http://a.example/" |}.
Definition SOURCE_B : Source := {| name := py "B"; url := py "http://b.example/" |}.

Definition two_sources_site : list (list N * outcome Response) :=
  [ (url SOURCE_A, ok (SECOND ++ py " " ++ FIRST));
    (url SOURCE_B, ok (py "<p>nothing to see</p>")) ].

Definition HELLO_PAGE : str := py "<html><body>hello</body></html>".

Definition ATTRIBUTES_PAGE : str :=
  py "<a href='" ++ LINK_A ++ py "'>one</a> <a href='" ++ LINK_B ++ py "'>two</a>".

Definition PARAGRAPHS_PAGE : str :=
  py "<p>" ++ LINK_A ++ py "</p><p>" ++ LINK_B ++ py "</p>".

Definition QUERY_LINK : str := py "http://x?q=/liver".

(** The first source answers, the second one is not found. *)
Definition bongo_missing_site : list (list N * outcome Response) :=
  [ (py "https://toffeelive.com/en/live", ok (py "<p>" ++ LINK_B ++ py " </p>"));
    (py "https://example.com/bongo",
     Returns {| status_code := 404; text := py "not found" |}) ].

(** Both sources answer with a page without links. *)
Definition empty_pages_site : list (list N * outcome Response) :=
  [ (py "https://toffeelive.com/en/live", ok HELLO_PAGE);
    (py "https://example.com/bongo", ok (py "")) ].

(** Both sources answer with the two links. *)
Definition two_links_site : list (list N * outcome Response) :=
  [ (py "https://toffeelive.com/en/live", ok ATTRIBUTES_PAGE);
    (py "https://example.com/bongo", ok ATTRIBUTES_PAGE) ].

(** A source whose name holds a line feed. *)
Definition SOURCE_TWO_LINES : Source :=
  {| name := py "A" ++ [NL] ++ py "B"; url := py "http://a.example/" |}.

(** A server that answers 304 Not Modified. *)
Definition not_modified_site : list (list N * outcome Response) :=
  [ (py "http://a.example/", Returns {| status_code := 304; text := py "" |}) ].

(** ** Further vocabulary *)

(** A code point that UTF-8 encodes: below U+110000 and no surrogate. *)
Definition scalar (c : char) : Prop := c < 1114112 /\ ~ (55296 <= c <= 57343).

(** The upper case of an ASCII letter; any other character is left as it
    is. *)
Definition ascii_upper (c : char) : char :=
  if (97 <=? c) && (c <=? 122) then c - 32 else c.

(** A regular expression that does not see the change [f] of the
    characters: each of its sets holds [f c] exactly when it holds
    [c]. *)
Fixpoint blind (f : char -> char) (r : regex) : Prop :=
  match r with
  | Eps => True
  | Chr p | Rep p => forall c, p (f c) = p c
  | Cat r1 r2 | Alt r1 r2 => blind f r1 /\ blind f r2
  | Opt r1 => blind f r1
  end.

(** What follows a link in a text: nothing, or a character outside the
    bracketed set. *)
Definition delimited (post : str) : Prop :=
  forall d, head post = Some d -> url_char d = false.


(** BeautifulSoup is a library the program imports. The parser it is
    given here, html.parser, replaces a character reference in the text
    of a page by the character it stands for. Only the decimal
    references closed by a semicolon are modelled, for the example
    below: an ampersand, a hash sign, digits and a semicolon become the
    character with that number, and the model leaves anything else as it
    is (named and hexadecimal references are not covered). Where the
    scan stands: outside a reference, after an ampersand, or in the
    digits, of which it keeps the text and the number. *)
Inductive reference : Type :=
  | Outside
  | Ampersand
  | Digits (seen : str) (value : N).

Definition is_digit (c : char) : bool := (48 <=? c) && (c <=? 57).

Fixpoint character_references (st : reference) (s : str) : str :=
  match s with
  | [] =>
      match st with
      | Outside => []
      | Ampersand => [38]
      | Digits seen _ => 38 :: 35 :: seen
      end
  | c :: s' =>
      let outside :=
        if c =? 38 then character_references Ampersand s'
        else c :: character_references Outside s' in
      match st with
      | Outside => outside
      | Ampersand =>
          if c =? 35 then character_references (Digits [] 0) s'
          else 38 :: outside
      | Digits seen value =>
          if is_digit c then
            character_references (Digits (seen ++ [c]) (10 * value + (c - 48))) s'
          else if (c =? 59) && negb (bool_decide (seen = [])) then
            value :: character_references Outside s'
          else 38 :: 35 :: seen ++ outside
      end
  end.

(** The rendering of a page whose text holds character references: the
    tags are stripped, then the references of the text are replaced. *)
Definition plain_text (html sep : str) : str :=
  character_references Outside (strip_markup html sep).

(** Texts of the further examples. *)
Definition REFERENCES_PAGE : str := py "http:&#47;&#47;x/live".

Definition SURROGATE : char := 55357.

Definition MIXED_TEXT : str := py "see Http://x/Live/1 and http://y/a.M3U8".

(** * Properties *)

(** ** The order on strings *)

Ltac order_cases a b :=
  destruct (N.ltb_spec a b); destruct (N.eqb_spec a b); try lia.

Lemma str_leb_refl (s : str) : str_leb s s = true.
Proof.
  induction s as [|a s IH]; simpl; [done|].
  by rewrite N.ltb_irrefl, N.eqb_refl.
Qed.

Lemma str_leb_total (s t : str) : str_leb s t = true \/ str_leb t s = true.
Proof.
  revert t; induction s as [|a s IH]; intros [|b t]; simpl; auto.
  order_cases a b; order_cases b a; auto.
Qed.

Lemma str_leb_trans (s t u : str) :
  str_leb s t = true -> str_leb t u = true -> str_leb s u = true.
Proof.
  revert t u; induction s as [|a s IH]; intros [|b t] [|c u]; simpl; try done.
  order_cases a b; order_cases b c; order_cases a c; subst; try done; eauto.
Qed.

Lemma str_leb_antisym (s t : str) :
  str_leb s t = true -> str_leb t s = true -> s = t.
Proof.
  revert t; induction s as [|a s IH]; intros [|b t]; simpl; try done.
  order_cases a b; order_cases b a; subst; try done.
  intros; f_equal; auto.
Qed.

(** [str_le] is the lexicographic order of the code points: [s] is a
    prefix of [t], or the two differ first at a place where the
    character of [s] is the smaller one. *)
Lemma str_le_spec (s t : str) :
  str_le s t <->
  (exists u, t = s ++ u)
  \/ (exists p a b s' t', s = p ++ a :: s' /\ t = p ++ b :: t' /\ a < b).
Proof.
  unfold str_le. revert t; induction s as [|a s IH]; intros [|b t]; simpl.
  - split; [|done]. intros _. left. by exists [].
  - split; [|done]. intros _. left. by exists (b :: t).
  - split; [done|]. intros [(u & [=])|(p & ? & ? & ? & ? & _ & E & _)].
    by destruct p.
  - order_cases a b.
    + split; [|done]. intros _. right. by exists [], a, b, s, t.
    + subst b. rewrite IH. split.
      * intros [(u & ->)|(p & x & y & s' & t' & -> & -> & ?)].
        -- left. by exists u.
        -- right. by exists (a :: p), x, y, s', t'.
      * intros [(u & [= ->])|(p & x & y & s' & t' & Es & Et & ?)].
        -- left. by exists u.
        -- destruct p as [|c p]; simplify_eq/=; [lia|].
           right. by exists p, x, y, s', t'.
    + split; [done|].
      intros [(u & [= -> _])|(p & x & y & s' & t' & Es & Et & ?)]; [lia|].
      destruct p as [|c p]; simplify_eq/=; lia.
Qed.

#[global] Instance str_le_refl : Reflexive str_le.
Proof. intros s. apply str_leb_refl. Qed.

#[global] Instance str_le_total : Total str_le.
Proof. intros s t. apply str_leb_total. Qed.

#[global] Instance str_le_trans : Transitive str_le.
Proof. intros s t u. apply str_leb_trans. Qed.

#[global] Instance str_le_antisym : AntiSymm (=) str_le.
Proof. intros s t. apply str_leb_antisym. Qed.

Lemma sorted_Sorted (xs : list str) : StronglySorted str_le (sorted xs).
Proof. apply StronglySorted_merge_sort; apply _. Qed.

Lemma sorted_Permutation (xs : list str) : sorted xs ≡ₚ xs.
Proof. apply merge_sort_Permutation. Qed.

(** The sorted list of a collection does not depend on the order in
    which the collection is enumerated. *)
Lemma sorted_unique (xs ys : list str) : xs ≡ₚ ys -> sorted xs = sorted ys.
Proof.
  intros H. apply (Sorted_unique str_le).
  - apply Sorted_merge_sort; apply _.
  - apply Sorted_merge_sort; apply _.
  - by rewrite !sorted_Permutation.
Qed.

(** ** The matcher finds only what the pattern denotes *)

Lemma rep_sound p s k m :
  rep p s k = Some m ->
  exists m1 m2 s', s = m1 ++ s' /\ Forall (fun c => p c = true) m1
                   /\ k s' = Some m2 /\ m = m1 ++ m2.
Proof.
  revert m; induction s as [|c s IH]; simpl; intros m H.
  - exists [], m, []; auto.
  - destruct (p c) eqn:Hp; [|by exists [], m, (c :: s)].
    destruct (rep p s k) as [m'|] eqn:Hr; [|by exists [], m, (c :: s)].
    injection H as <-.
    destruct (IH _ eq_refl) as (m1 & m2 & s' & -> & Hall & Hk & ->).
    exists (c :: m1), m2, s'; repeat split; auto.
Qed.

Lemma bt_sound r s k m :
  bt r s k = Some m ->
  exists m1 m2 s', s = m1 ++ s' /\ lang r m1 /\ k s' = Some m2 /\ m = m1 ++ m2.
Proof.
  revert s k m; induction r as [|p|r1 IH1 r2 IH2|r1 IH1 r2 IH2|r1 IH1|p];
    simpl; intros s k m H.
  - exists [], m, s; auto.
  - destruct s as [|c s]; [done|]. destruct (p c) eqn:Hp; [|done].
    destruct (k s) as [m2|] eqn:Hk; [|done]. injection H as <-.
    exists [c], m2, s; repeat split; eauto.
  - destruct (IH1 _ _ _ H) as (m1 & m' & s1 & -> & L1 & H2 & ->).
    destruct (IH2 _ _ _ H2) as (m2 & m3 & s2 & -> & L2 & Hk & ->).
    exists (m1 ++ m2), m3, s2. rewrite <- !(assoc_L (++)). repeat split; eauto.
  - destruct (bt r1 s k) as [m'|] eqn:H1.
    + injection H as <-.
      destruct (IH1 _ _ _ H1) as (m1 & m2 & s' & ? & ? & ? & ?).
      exists m1, m2, s'; auto.
    + destruct (IH2 _ _ _ H) as (m1 & m2 & s' & ? & ? & ? & ?).
      exists m1, m2, s'; auto.
  - destruct (bt r1 s k) as [m'|] eqn:H1.
    + injection H as <-.
      destruct (IH1 _ _ _ H1) as (m1 & m2 & s' & ? & ? & ? & ?).
      exists m1, m2, s'; auto.
    + exists [], m, s; auto.
  - apply rep_sound, H.
Qed.

Lemma match_at_sound r s m :
  match_at r s = Some m -> lang r m /\ exists rest, s = m ++ rest.
Proof.
  intros H. destruct (bt_sound _ _ _ _ H) as (m1 & m2 & s' & -> & L & Hk & ->).
  injection Hk as <-. rewrite (right_id_L [] (++)). eauto.
Qed.

Lemma substring_cons m c s : substring m s -> substring m (c :: s).
Proof. intros (pre & post & ->). by exists (c :: pre), post. Qed.

Lemma scan_sound r skip s m :
  m ∈ scan r skip s -> lang r m /\ substring m s.
Proof.
  revert skip; induction s as [|c s IH]; intros skip; simpl.
  - destruct skip; simpl; [|by intros ?%elem_of_nil].
    destruct (match_at r []) as [m'|] eqn:Hm; [|by intros ?%elem_of_nil].
    intros ->%list_elem_of_singleton.
    destruct (match_at_sound _ _ _ Hm) as [L [rest E]].
    split; [done|]. by exists [], rest.
  - destruct skip; simpl.
    + destruct (match_at r (c :: s)) as [m'|] eqn:Hm.
      * intros [->|Hin]%elem_of_cons.
        -- destruct (match_at_sound _ _ _ Hm) as [L [rest E]].
           split; [done|]. by exists [], rest.
        -- destruct (IH _ Hin). auto using substring_cons.
      * intros Hin. destruct (IH _ Hin). auto using substring_cons.
    + intros Hin. destruct (IH _ Hin). auto using substring_cons.
Qed.

Lemma findall_sound pattern text m :
  m ∈ findall pattern text -> lang pattern m /\ substring m text.
Proof. apply scan_sound. Qed.

(** ** The characters of a match *)

Lemma url_char_spec (c : char) :
  url_char c = true <->
  ~ (9 <= c <= 13 \/ 28 <= c <= 32 \/ c = 133 \/ c = 160 \/ c = 5760
     \/ 8192 <= c <= 8202 \/ c = 8232 \/ c = 8233 \/ c = 8239 \/ c = 8287
     \/ c = 12288 \/ c = 39 \/ c = 34).
Proof.
  unfold url_char, is_space, QUOTE, DQUOTE.
  rewrite negb_true_iff, <- not_true_iff_false.
  rewrite !orb_true_iff, !andb_true_iff, !N.leb_le, !N.eqb_eq. tauto.
Qed.

Lemma plain_spec (c : char) :
  plain c = true <-> 33 <= c <= 126 /\ c <> 39 /\ c <> 34.
Proof.
  unfold plain, QUOTE, DQUOTE.
  rewrite !andb_true_iff, !negb_true_iff, !N.leb_le, !N.eqb_neq. tauto.
Qed.

Lemma unicode_tolower_cases (c : char) :
  (65 <= c <= 90 /\ unicode_tolower c = c + 32)
  \/ (c = 304 /\ unicode_tolower c = 105)
  \/ (c = 8490 /\ unicode_tolower c = 107)
  \/ (~ 65 <= c <= 90 /\ c <> 304 /\ c <> 8490 /\ unicode_tolower c = c).
Proof.
  unfold unicode_tolower.
  destruct (N.leb_spec 65 c), (N.leb_spec c 90); simpl;
    try (left; split; [lia|done]);
    destruct (N.eqb_spec c 304); try (right; left; split; [lia|done]);
    destruct (N.eqb_spec c 8490); try (right; right; left; split; [lia|done]);
    right; right; right; repeat split; lia.
Qed.

(** A literal of a pattern matches characters of the bracketed set
    only. *)
Lemma literal_url_char (c ch : char) :
  plain c = true -> literal c ch = true -> url_char ch = true.
Proof.
  rewrite plain_spec, url_char_spec. intros Hc. unfold literal.
  destruct (iscased c) eqn:Hcased.
  - rewrite bool_decide_eq_true. unfold ignorecase_fixes.
    assert (97 <= unicode_tolower c <= 122) as Hlo.
    { unfold iscased in Hcased.
      rewrite orb_true_iff, !andb_true_iff, !N.leb_le in Hcased.
      destruct (unicode_tolower_cases c) as [[? ->]|[[? ->]|[[? ->]|(?&?&?& ->)]]]; lia. }
    intros Hin.
    assert (unicode_tolower ch = unicode_tolower c
            \/ unicode_tolower ch = 305 \/ unicode_tolower ch = 383) as Hch.
    { revert Hin. repeat case_match; rewrite ?elem_of_cons, ?elem_of_nil; tauto. }
    destruct (unicode_tolower_cases ch) as [[? E]|[[? E]|[[? E]|(?&?&?& E)]]];
      rewrite E in Hch; lia.
  - rewrite N.eqb_eq. intros ->. lia.
Qed.

Lemma tight_lit_list (cs : str) :
  forallb plain cs = true ->
  tight (foldr (fun c r => Cat (Chr (literal c)) r) Eps cs).
Proof.
  induction cs as [|c cs IH]; simpl; [done|].
  rewrite andb_true_iff. intros [Hc Hcs]. split; [|auto].
  intros ch. by apply literal_url_char.
Qed.

Lemma tight_lit (x : string) : forallb plain (py x) = true -> tight (lit x).
Proof. apply tight_lit_list. Qed.

Lemma tight_url_head rest : tight rest -> tight (url_head rest).
Proof.
  intros H. unfold url_head. simpl tight.
  repeat split; auto; try (intros ch; by apply literal_url_char).
Qed.

Lemma tight_pattern_m3u8 : tight pattern_m3u8.
Proof.
  apply tight_url_head. split; [by apply tight_lit|]. simpl; auto.
Qed.

Lemma tight_pattern_segment : tight pattern_segment.
Proof.
  apply tight_url_head.
  split; [by apply tight_lit|]. split; [|simpl; auto].
  split; by apply tight_lit.
Qed.

Lemma tight_patterns pattern : pattern ∈ STREAM_LINK_PATTERNS -> tight pattern.
Proof.
  unfold STREAM_LINK_PATTERNS. rewrite !elem_of_cons, elem_of_nil.
  intros [->|[->|[]]]; [apply tight_pattern_m3u8 | apply tight_pattern_segment].
Qed.

Lemma tight_lang r m : tight r -> lang r m -> url_text m.
Proof.
  unfold url_text. revert m.
  induction r as [|p|r1 IH1 r2 IH2|r1 IH1 r2 IH2|r1 IH1|p]; simpl; intros m T L.
  - by subst.
  - destruct L as (c & -> & Hp). repeat constructor; auto.
  - destruct T, L as (m1 & m2 & -> & ? & ?). apply Forall_app; auto.
  - destruct T, L; auto.
  - destruct L as [->|?]; auto.
  - eapply Forall_impl; [exact L|]. auto.
Qed.

(** ** The shapes of a match *)

Lemma lang_lit_list cs m :
  lang (foldr (fun c r => Cat (Chr (literal c)) r) Eps cs) m ->
  Forall2 (fun c ch => literal c ch = true) cs m.
Proof.
  revert m; induction cs as [|c cs IH]; simpl; intros m.
  - intros ->. constructor.
  - intros (m1 & m2 & -> & (ch & -> & Hch) & L). constructor; auto.
Qed.

Lemma lang_lit x m : lang (lit x) m -> ignoring_case x m.
Proof. apply lang_lit_list. Qed.

Lemma lang_url_head rest l :
  lang (url_head rest) l ->
  exists scheme host tail,
    l = scheme ++ host ++ tail /\ is_scheme scheme
    /\ host <> [] /\ url_text host /\ lang rest tail.
Proof.
  unfold url_head.
  intros (m1 & ? & -> & L1%lang_lit & m2 & ? & -> & L2 & m3 & ? & ->
          & L3%lang_lit & m4 & ? & -> & (c & -> & Hc) & m5 & tail & -> & L5 & L).
  exists (m1 ++ m2 ++ m3), (c :: m5), tail.
  split; [by rewrite <- !(assoc_L (++))|].
  split; [|split; [done|split; [by constructor|done]]].
  unfold is_scheme, ignoring_case in *.
  destruct L2 as [->|L2%lang_lit]; unfold ignoring_case in *.
  - left. change (py "http://") with (py "http" ++ py "://").
    by apply Forall2_app.
  - right. change (py "https://") with (py "http" ++ py "s" ++ py "://").
    by repeat apply Forall2_app.
Qed.

Lemma lang_pattern_m3u8 l : lang pattern_m3u8 l -> shape_m3u8 l.
Proof.
  intros (scheme & host & ? & -> & ? & ? & ? & ext & tail & -> & L & ?)%lang_url_head.
  exists scheme, host, ext, tail. repeat split; auto using lang_lit.
Qed.

Lemma lang_pattern_segment l : lang pattern_segment l -> shape_segment l.
Proof.
  intros (scheme & host & ? & -> & ? & ? & ? & slash & ? & -> & Ls%lang_lit
          & word & tail & -> & Lw & ?)%lang_url_head.
  exists scheme, host, (slash ++ word), tail.
  split; [by rewrite <- !(assoc_L (++))|]. repeat split; auto.
  unfold ignoring_case in *.
  destruct Lw as [Lw%lang_lit|Lw%lang_lit]; [left|right].
  - change (py "/stream") with (py "/" ++ py "stream"). by apply Forall2_app.
  - change (py "/live") with (py "/" ++ py "live"). by apply Forall2_app.
Qed.

(** ** Matches stay inside a token *)

Lemma rep_local p t d rest k k' :
  (forall c, p c = true -> url_char c = true) -> url_char d = false ->
  (forall t2, k (t2 ++ d :: rest) = k' t2) ->
  rep p (t ++ d :: rest) k = rep p t k'.
Proof.
  intros Hp Hd Hk. induction t as [|c t IH]; simpl.
  - destruct (p d) eqn:E; [apply Hp in E; congruence|]. apply (Hk []).
  - pose proof (Hk (c :: t)) as E. simpl in E. by rewrite IH, E.
Qed.

Lemma bt_local r t d rest k k' :
  tight r -> url_char d = false ->
  (forall t2, k (t2 ++ d :: rest) = k' t2) ->
  bt r (t ++ d :: rest) k = bt r t k'.
Proof.
  intros T Hd. revert t k k' T.
  induction r as [|p|r1 IH1 r2 IH2|r1 IH1 r2 IH2|r1 IH1|p];
    simpl; intros t k k' T Hk.
  - apply Hk.
  - destruct t as [|c t]; simpl.
    + destruct (p d) eqn:E; [apply T in E; congruence|done].
    + by rewrite Hk.
  - destruct T. apply IH1; [done|]. intros t2. by apply IH2.
  - destruct T. by rewrite (IH1 t k k'), (IH2 t k k').
  - by rewrite (IH1 t k k'), (Hk t).
  - by apply rep_local.
Qed.

Lemma match_at_local r t d rest :
  tight r -> url_char d = false ->
  match_at r (t ++ d :: rest) = match_at r t.
Proof. intros. by apply bt_local. Qed.

Lemma match_at_length r s m : match_at r s = Some m -> (length m <= length s)%nat.
Proof.
  intros (_ & rest & ->)%match_at_sound. rewrite length_app. lia.
Qed.

Lemma scan_local r t d rest skip :
  tight r -> url_char d = false -> (skip <= length t)%nat ->
  scan r skip (t ++ d :: rest) = scan r skip t ++ scan r 0 rest.
Proof.
  intros T Hd. revert skip; induction t as [|c t IH]; intros skip Hskip.
  - simpl in Hskip. assert (skip = 0%nat) as -> by lia.
    pose proof (match_at_local r [] d rest T Hd) as El. simpl in El.
    simpl. rewrite El.
    destruct (match_at r []) as [m|] eqn:E; [|done].
    apply match_at_length in E. destruct m; [done|simpl in E; lia].
  - simpl app. destruct skip as [|n]; simpl scan.
    + pose proof (match_at_local r (c :: t) d rest T Hd) as El.
      simpl in El. rewrite El.
      destruct (match_at r (c :: t)) as [m|] eqn:E.
      * apply match_at_length in E. simpl in E.
        rewrite IH by lia. done.
      * apply IH. lia.
    + apply IH. simpl in Hskip. lia.
Qed.

(** A match never crosses white space or a quote. *)
Lemma findall_delimiter pattern t d rest :
  tight pattern -> url_char d = false ->
  findall pattern (t ++ d :: rest) = findall pattern t ++ findall pattern rest.
Proof. intros. apply scan_local; auto with lia. Qed.

Lemma tokens_cases (s : str) :
  tokens s = [s]
  \/ exists t d rest,
       s = t ++ d :: rest /\ url_char d = false /\ tokens s = t :: tokens rest.
Proof.
  induction s as [|c s IH]; simpl; [by left|].
  destruct (url_char c) eqn:Hc.
  - destruct IH as [->|(t & d & rest & -> & Hd & ->)]; [by left|].
    right. by exists (c :: t), d, rest.
  - right. by exists [], c, s.
Qed.

(** [findall] works token by token. *)
Lemma findall_tokens pattern (s : str) :
  tight pattern -> findall pattern s = tokens s ≫= findall pattern.
Proof.
  intros T. remember (length s) as n eqn:Hn. revert s Hn.
  induction n as [n IH] using lt_wf_ind. intros s ->.
  destruct (tokens_cases s) as [->|(t & d & rest & -> & Hd & ->)].
  - simpl. by rewrite (right_id_L [] (++)).
  - rewrite findall_delimiter by done. simpl. f_equal.
    apply (IH (length rest)); [|done]. rewrite length_app. simpl. lia.
Qed.

Lemma findall_no_match pattern text :
  pattern ∈ STREAM_LINK_PATTERNS -> no_match text -> findall pattern text = [].
Proof.
  intros Hp Hno. destruct (findall pattern text) as [|m ms] eqn:E; [done|].
  assert (m ∈ findall pattern text) as Hm by (rewrite E; left).
  apply findall_sound in Hm as [L Hsub]. by destruct (Hno pattern m).
Qed.

(** ** Small facts *)

Lemma foldl_append {A} (f : nat -> A -> list N) acc (xs : list (nat * A)) :
  foldl (fun acc '(index, x) => acc ++ [f index x]) acc xs
  = acc ++ ((fun '(index, x) => f index x) <$> xs).
Proof.
  revert acc; induction xs as [|[index x] xs IH]; intros acc; simpl.
  - by rewrite (right_id_L [] (++)).
  - rewrite IH, <- (assoc_L (++)). done.
Qed.

Lemma sorted_id (xs : list (list N)) : Sorted str_le xs -> sorted xs = xs.
Proof.
  intros H. apply (Sorted_unique str_le); [|done|apply sorted_Permutation].
  apply Sorted_merge_sort; apply _.
Qed.

Lemma raise_for_status_cases response :
  ((400 <= status_code response < 600)%Z
   /\ raise_for_status response = Raises (HTTPError (status_code response)))
  \/ (~ (400 <= status_code response < 600)%Z
      /\ raise_for_status response = Returns tt).
Proof.
  unfold raise_for_status.
  destruct (Z.leb_spec 400 (status_code response)),
           (Z.ltb_spec (status_code response) 600); simpl;
    [left|right|right|right]; split; auto; lia.
Qed.

Lemma newlines_app (s t : list N) : newlines (s ++ t) = (newlines s + newlines t)%nat.
Proof. unfold newlines. by rewrite filter_app, length_app. Qed.

Lemma newlines_none (s : list N) : NL ∉ s -> newlines s = 0%nat.
Proof.
  unfold newlines. induction s as [|c s IH]; [done|].
  rewrite not_elem_of_cons. intros [Hc Hs].
  rewrite filter_cons_False by done. auto.
Qed.

Lemma url_text_no_newline (l : list N) : url_text l -> NL ∉ l.
Proof.
  intros H Hin. unfold url_text in H. rewrite Forall_forall in H.
  by specialize (H _ Hin).
Qed.

Lemma digits_no_newline (d : Decimal.uint) : NL ∉ py (NilEmpty.string_of_uint d).
Proof.
  unfold py. induction d; simpl;
    rewrite ?not_elem_of_cons; try split; try done; apply not_elem_of_nil.
Qed.

Lemma newlines_entry (source : Source) (index : nat) (link : list N) :
  NL ∉ name source -> url_text link ->
  newlines (format_playlist_entry (name source ++ py " " ++ str_of_int index) link)
  = 1%nat.
Proof.
  intros Hn Hl. unfold format_playlist_entry, str_of_int.
  rewrite !newlines_app, (newlines_none (name source)) by done.
  rewrite (newlines_none link) by by apply url_text_no_newline.
  rewrite (newlines_none (py (NilEmpty.string_of_uint _)))
    by apply digits_no_newline.
  reflexivity.
Qed.

Lemma newlines_entries_of (source : Source) (links : list (list N)) :
  NL ∉ name source -> Forall url_text links ->
  Forall (fun entry => newlines entry = 1%nat) (entries_of source links).
Proof.
  intros Hn Hl. unfold entries_of, enumerate.
  rewrite Forall_fmap. apply Forall_forall. intros [index link] Hin.
  simpl. apply newlines_entry; [done|].
  rewrite Forall_forall in Hl. apply Hl. eapply elem_of_zip_r, Hin.
Qed.

Lemma findall_LINK_A :
  findall pattern_m3u8 LINK_A = [LINK_A] /\ findall pattern_segment LINK_A = [].
Proof. by vm_compute. Qed.

Lemma findall_LINK_B :
  findall pattern_m3u8 LINK_B = [] /\ findall pattern_segment LINK_B = [LINK_B].
Proof. by vm_compute. Qed.

Lemma elem_of_findall_token pattern text l :
  pattern ∈ STREAM_LINK_PATTERNS ->
  l ∈ findall pattern text <-> exists tok, tok ∈ tokens text /\ l ∈ findall pattern tok.
Proof.
  intros Hp. rewrite findall_tokens by by apply tight_patterns.
  rewrite list_elem_of_bind. split; intros (tok & ? & ?); eauto.
Qed.

Lemma scheme_colon (scheme : list N) : is_scheme scheme -> 58 ∈ scheme.
Proof.
  intros [H|H].
  - destruct (Forall2_lookup_l _ _ _ 4%nat 58 H eq_refl) as (ch & Hch & Hlit).
    apply N.eqb_eq in Hlit as ->. by eapply list_elem_of_lookup_2.
  - destruct (Forall2_lookup_l _ _ _ 5%nat 58 H eq_refl) as (ch & Hch & Hlit).
    apply N.eqb_eq in Hlit as ->. by eapply list_elem_of_lookup_2.
Qed.

(** A text without a colon holds no link. *)
Lemma no_match_no_colon (text : list N) :
  forallb (fun c => negb (c =? 58)) text = true -> no_match text.
Proof.
  intros Hall pattern m Hp (pre & post & ->) L.
  assert (58 ∈ m) as Hin.
  { unfold STREAM_LINK_PATTERNS in Hp.
    rewrite !elem_of_cons, elem_of_nil in Hp. destruct Hp as [->|[->|[]]].
    - apply lang_pattern_m3u8 in L as (scheme & ? & ? & ? & -> & Hs & _).
      apply elem_of_app. left. by apply scheme_colon.
    - apply lang_pattern_segment in L as (scheme & ? & ? & ? & -> & Hs & _).
      apply elem_of_app. left. by apply scheme_colon. }
  rewrite forallb_forall in Hall.
  assert (In 58 (pre ++ m ++ post)) as Hin'.
  { apply list_elem_of_In. rewrite !elem_of_app. auto. }
  by apply Hall in Hin'.
Qed.

(** ** Extraction *)

Section Extraction.

Variable get_text : list N -> list N -> list N.

Lemma elem_of_found_links html l :
  l ∈ found_links get_text html <->
  exists text pattern,
    text ∈ [html; get_text html (py " ")]
    /\ pattern ∈ STREAM_LINK_PATTERNS /\ l ∈ findall pattern text.
Proof.
  unfold found_links. rewrite list_elem_of_bind. split.
  - intros (text & (pattern & ? & ?)%list_elem_of_bind & ?). eauto.
  - intros (text & pattern & ? & ? & ?). exists text. split; [|done].
    apply list_elem_of_bind. eauto.
Qed.

(** The set the loops build holds the links found, whatever the order
    of the updates. *)
Lemma extract_stream_links_set html :
  extract_stream_links get_text html
  = sorted (elements (list_to_set (found_links get_text html) : gset (list N))).
Proof.
  unfold extract_stream_links, found_links. f_equal. f_equal.
  apply set_eq. intros l. simpl.
  rewrite !elem_of_union, !elem_of_list_to_set, !elem_of_app, !elem_of_nil.
  rewrite elem_of_empty. tauto.
Qed.

Lemma elem_of_extract html l :
  l ∈ extract_stream_links get_text html <-> l ∈ found_links get_text html.
Proof.
  rewrite extract_stream_links_set, sorted_Permutation, elem_of_elements.
  apply elem_of_list_to_set.
Qed.

Lemma extract_NoDup html : NoDup (extract_stream_links get_text html).
Proof.
  rewrite extract_stream_links_set, sorted_Permutation. apply NoDup_elements.
Qed.

Lemma extract_enumeration html order :
  NoDup order -> (forall l, l ∈ order <-> l ∈ found_links get_text html) ->
  sorted order = extract_stream_links get_text html.
Proof.
  intros Hnd Hin. rewrite extract_stream_links_set. apply sorted_unique.
  apply NoDup_Permutation; [done|apply NoDup_elements|].
  intros l. by rewrite Hin, elem_of_elements, elem_of_list_to_set.
Qed.

Lemma extract_sound html l :
  l ∈ extract_stream_links get_text html ->
  exists text pattern,
    text ∈ [html; get_text html (py " ")] /\ pattern ∈ STREAM_LINK_PATTERNS
    /\ lang pattern l /\ substring l text.
Proof.
  rewrite elem_of_extract, elem_of_found_links.
  intros (text & pattern & ? & ? & [? ?]%findall_sound). eauto 6.
Qed.

(** C2. For every HTML text, [extract_stream_links] returns a list that
    is sorted for the code-point order of strings and has no duplicate;
    and the list is a function of the links found alone: whatever
    duplicate-free enumeration of them is sorted (the iteration order of
    the set is not fixed), the same list comes out, so two calls on one
    input agree. *)
Theorem extract_stream_links_sorted_dedup (html : list N) :
  StronglySorted str_le (extract_stream_links get_text html)
  /\ NoDup (extract_stream_links get_text html)
  /\ (forall order,
        NoDup order ->
        (forall l, l ∈ order <-> l ∈ found_links get_text html) ->
        sorted order = extract_stream_links get_text html)
  /\ extract_stream_links get_text html = extract_stream_links get_text html.
Proof.
  split; [apply sorted_Sorted|]. split; [apply extract_NoDup|].
  split; [apply extract_enumeration|reflexivity].
Qed.

(** C4, as the code has it. Every string [extract_stream_links] returns
    has one of two shapes, letters compared without regard to case as
    the patterns compare them: an http or https scheme with [://], at
    least one character, then either [.m3u8] or one of [/stream] and
    [/live], then any number of characters, none of them white space or
    a quote. Nothing makes [/stream] or [/live] a whole segment of the
    path. *)
Theorem extract_stream_links_shapes (html l : list N) :
  l ∈ extract_stream_links get_text html ->
  shape_m3u8 l \/ shape_segment l.
Proof.
  intros (text & pattern & _ & Hp & L & _)%extract_sound.
  unfold STREAM_LINK_PATTERNS in Hp.
  rewrite !elem_of_cons, elem_of_nil in Hp. destruct Hp as [->|[->|[]]].
  - left. by apply lang_pattern_m3u8.
  - right. by apply lang_pattern_segment.
Qed.

Lemma extract_url_text html l :
  l ∈ extract_stream_links get_text html -> url_text l.
Proof.
  intros (text & pattern & _ & Hp & L & _)%extract_sound.
  eapply tight_lang; [by apply tight_patterns|done].
Qed.

Lemma extract_nil html :
  (forall l, l ∉ found_links get_text html) ->
  extract_stream_links get_text html = [].
Proof.
  intros H. destruct (extract_stream_links get_text html) as [|l ls] eqn:E; [done|].
  destruct (H l). apply elem_of_extract. rewrite E. left.
Qed.

(** C9, as the code has it. When no piece of the HTML text and no piece
    of its plain-text rendering is matched by either pattern,
    [extract_stream_links] returns the empty list. The rendering is the
    second text the patterns are run on: that the HTML text holds no
    match is not enough. *)
Theorem extract_stream_links_no_match (html : list N) :
  no_match html -> no_match (get_text html (py " ")) ->
  extract_stream_links get_text html = [].
Proof.
  intros H1 H2. apply extract_nil. intros l.
  rewrite elem_of_found_links. intros (text & pattern & Ht & Hp & Hl).
  rewrite !elem_of_cons, elem_of_nil in Ht.
  destruct Ht as [->|[->|[]]];
    rewrite findall_no_match in Hl by done; by apply elem_of_nil in Hl.
Qed.

(** C7, as the code has it. Every run of characters between white space
    and quotes, in the HTML text and in its plain-text rendering, is the
    first link, the second link, or holds nothing a pattern matches; and
    each of the two links is such a run in one of the two texts. Then
    [extract_stream_links] returns exactly the two links, in this
    order. *)
Theorem extract_stream_links_two_links (html : list N) :
  (forall text tok,
     text ∈ [html; get_text html (py " ")] -> tok ∈ tokens text ->
     tok = LINK_A \/ tok = LINK_B \/ no_match tok) ->
  (exists text, text ∈ [html; get_text html (py " ")] /\ LINK_A ∈ tokens text) ->
  (exists text, text ∈ [html; get_text html (py " ")] /\ LINK_B ∈ tokens text) ->
  extract_stream_links get_text html = [LINK_A; LINK_B].
Proof.
  intros Htok (textA & HtA & HA) (textB & HtB & HB).
  destruct findall_LINK_A as [A1 A2], findall_LINK_B as [B1 B2].
  rewrite <- (extract_enumeration html [LINK_A; LINK_B]).
  - by vm_compute.
  - by apply (bool_decide_unpack _).
  - intros l. rewrite elem_of_found_links. split.
    + rewrite !elem_of_cons, elem_of_nil. intros [->|[->|[]]].
      * exists textA, pattern_m3u8. split; [done|]. split; [left|].
        apply elem_of_findall_token; [left|].
        exists LINK_A. rewrite A1. split; [done|left].
      * exists textB, pattern_segment. split; [done|].
        split; [right; left|].
        apply elem_of_findall_token; [right; left|].
        exists LINK_B. rewrite B2. split; [done|left].
    + intros (text & pattern & Ht & Hp & Hl).
      apply elem_of_findall_token in Hl as (tok & Hin & Hl); [|done].
      destruct (Htok text tok Ht Hin) as [->|[->|Hno]].
      * unfold STREAM_LINK_PATTERNS in Hp.
        rewrite !elem_of_cons, elem_of_nil in Hp. destruct Hp as [->|[->|[]]].
        -- rewrite A1 in Hl. apply list_elem_of_singleton in Hl as ->. left.
        -- rewrite A2 in Hl. by apply elem_of_nil in Hl.
      * unfold STREAM_LINK_PATTERNS in Hp.
        rewrite !elem_of_cons, elem_of_nil in Hp. destruct Hp as [->|[->|[]]].
        -- rewrite B1 in Hl. by apply elem_of_nil in Hl.
        -- rewrite B2 in Hl. apply list_elem_of_singleton in Hl as ->.
           right; left.
      * rewrite findall_no_match in Hl by done. by apply elem_of_nil in Hl.
Qed.

Lemma found_in_html
    (pattern : regex) (html l : list N) :
  pattern ∈ STREAM_LINK_PATTERNS -> l ∈ findall pattern html ->
  l ∈ extract_stream_links get_text html.
Proof.
  intros Hp Hl. apply elem_of_extract, elem_of_found_links.
  exists html, pattern. split; [left|done].
Qed.

End Extraction.

(** ** Fetching *)

Section Fetching.

Context {World : Type}.
Variable requests_get : list N -> Z -> M World Response.

Lemma fetch_html_unfold url timeout w :
  fetch_html requests_get url timeout w =
  match requests_get url timeout w with
  | (Returns response, w') =>
      match raise_for_status response with
      | Returns _ => (Returns (text response), w')
      | Raises e => (Raises e, w')
      end
  | (Raises e, w') => (Raises e, w')
  end.
Proof.
  unfold fetch_html, bind, lift, ret.
  destruct (requests_get url timeout w) as [[response|e] w']; [|done].
  by destruct (raise_for_status response).
Qed.

(** C5, as the code has it. [fetch_html] returns the text of the
    response exactly when the request gave a response whose status is
    not a client or server error (not in 400..599); it raises exactly
    when the request itself raised (network failure, timeout) or the
    status is in 400..599. *)
Theorem fetch_html_returns_iff (url : list N) (timeout : Z) (w w' : World) :
  (forall body,
     fetch_html requests_get url timeout w = (Returns body, w') <->
     exists response,
       requests_get url timeout w = (Returns response, w')
       /\ ~ (400 <= status_code response < 600)%Z
       /\ body = text response)
  /\ (forall e,
        fetch_html requests_get url timeout w = (Raises e, w') <->
        requests_get url timeout w = (Raises e, w')
        \/ exists response,
             requests_get url timeout w = (Returns response, w')
             /\ (400 <= status_code response < 600)%Z
             /\ e = HTTPError (status_code response)).
Proof.
  rewrite fetch_html_unfold.
  destruct (requests_get url timeout w) as [[response|e0] w0].
  - destruct (raise_for_status_cases response) as [[Hs ->]|[Hs ->]]; split.
    + intros body. split; [done|]. intros (r & [= <- <-] & ? & _). done.
    + intros e. split.
      * intros [= <- <-]. right. eauto.
      * intros [[=]|(r & [= <- <-] & _ & ->)]. done.
    + intros body. split.
      * intros [= <- <-]. eauto.
      * intros (r & [= <- <-] & _ & ->). done.
    + intros e. split; [done|]. intros [[=]|(r & [= <- <-] & ? & _)]. done.
  - split.
    + intros body. split; [done|]. intros (r & [=] & _).
    + intros e. split.
      * intros [= <- <-]. by left.
      * intros [[= <- <-]|(r & [=] & _)]. done.
Qed.

End Fetching.

(** ** Writing *)

(** The entry of the specification's example. *)
Example format_playlist_entry_example :
  format_playlist_entry (py "Toffee 1") (py "https://x/a.m3u8")
  = py "#EXTINF:-1, Toffee 1" ++ [NL] ++ py "https://x/a.m3u8".
Proof. reflexivity. Qed.

(** C6. Saving the two entries of the example and reading the file back
    gives the header, the two lines of the entry, each ended by one line
    feed, and nothing else; the file at the path holds exactly these
    characters afterwards, whatever it held before. *)
Theorem save_playlist_round_trip (path : list N) (disk : gmap (list N) (list N)) :
  (let* _ := save_playlist [py "#EXTM3U"; py "#EXTINF:-1, X 1" ++ [NL] ++ py "http://u"]
               path in
   read_text path) disk
  = (Returns (py "#EXTM3U" ++ [NL] ++ py "#EXTINF:-1, X 1" ++ [NL]
              ++ py "http://u" ++ [NL]),
     <[path := py "#EXTM3U" ++ [NL] ++ py "#EXTINF:-1, X 1" ++ [NL]
               ++ py "http://u" ++ [NL]]> disk).
Proof.
  unfold bind, save_playlist, write_text, read_text.
  match goal with |- context [utf8_encode ?s] =>
    replace (utf8_encode s) with (Some s) by (vm_compute; reflexivity)
  end.
  rewrite lookup_insert_eq.
  match goal with |- context [utf8_decode ?s] =>
    replace (utf8_decode s) with (Some s) by (vm_compute; reflexivity)
  end.
  reflexivity.
Qed.

(** ** Building *)

Section Building.

Context {World : Type}.
Variable requests_get : list N -> Z -> M World Response.
Variable get_text : list N -> list N -> list N.

Lemma build_loop_cons source rest entries w :
  build_loop requests_get get_text (source :: rest) entries w =
  match fetch_html requests_get (url source) 20 w with
  | (Returns html, w1) =>
      build_loop requests_get get_text rest
        (entries ++ entries_of source (extract_stream_links get_text html)) w1
  | (Raises e, w1) => (Raises e, w1)
  end.
Proof.
  simpl. unfold bind at 1.
  destruct (fetch_html requests_get (url source) 20 w) as [[html|e] w1]; [|done].
  f_equal. unfold extract_links, entries_of.
  apply (foldl_append (fun index link =>
    format_playlist_entry (name source ++ py " " ++ str_of_int index) link)).
Qed.

Lemma build_loop_pages sources entries w htmls w' :
  pages requests_get sources w htmls w' ->
  build_loop requests_get get_text sources entries w
  = (Returns (entries ++ built get_text sources htmls), w').
Proof.
  intros H. revert entries.
  induction H as [w|source rest w html w1 htmls w2 Hf _ IH]; intros entries.
  - simpl. unfold ret, built. simpl. by rewrite (right_id_L [] (++)).
  - rewrite build_loop_cons, Hf, IH. unfold built. simpl.
    by rewrite <- (assoc_L (++)).
Qed.

Lemma build_loop_returns sources entries w es w' :
  build_loop requests_get get_text sources entries w = (Returns es, w') ->
  exists htmls,
    pages requests_get sources w htmls w' /\ es = entries ++ built get_text sources htmls.
Proof.
  revert entries w; induction sources as [|source rest IH]; intros entries w.
  - simpl. intros [= <- <-]. exists []. split; [constructor|].
    unfold built. simpl. by rewrite (right_id_L [] (++)).
  - rewrite build_loop_cons.
    destruct (fetch_html requests_get (url source) 20 w) as [[html|e] w1] eqn:Hf;
      [|done].
    intros (htmls & Hp & ->)%IH. exists (html :: htmls).
    split; [by econstructor|]. unfold built. simpl.
    by rewrite <- (assoc_L (++)).
Qed.

Lemma build_loop_raises before source after entries w htmls w1 e w2 :
  pages requests_get before w htmls w1 ->
  fetch_html requests_get (url source) 20 w1 = (Raises e, w2) ->
  build_loop requests_get get_text (before ++ source :: after) entries w
  = (Raises e, w2).
Proof.
  intros H Hf. revert entries.
  induction H as [w|s rest w html w1 htmls w3 Hs _ IH]; intros entries.
  - simpl app. by rewrite build_loop_cons, Hf.
  - simpl app. rewrite build_loop_cons, Hs. by apply IH.
Qed.

Lemma build_playlist_pages sources w htmls w' :
  pages requests_get sources w htmls w' ->
  build_playlist requests_get get_text sources w
  = (Returns (py "#EXTM3U" :: built get_text sources htmls), w').
Proof. intros H. unfold build_playlist. by rewrite (build_loop_pages _ _ _ _ _ H). Qed.

(** C1. Two sources A and B are fetched in this order; the links found
    in the page of A are L2 and L1, with L1 before L2 in the order of
    strings, and no link is found in the page of B. Then
    [build_playlist] returns the header, the entry of L1 numbered 1 and
    the entry of L2 numbered 2, both under the name of A, and nothing
    for B. *)
Theorem build_playlist_two_sources
    (A B : Source) (w w1 w2 : World) (htmlA htmlB L1 L2 : list N) :
  fetch_html requests_get (url A) 20 w = (Returns htmlA, w1) ->
  fetch_html requests_get (url B) 20 w1 = (Returns htmlB, w2) ->
  (forall l, l ∈ found_links get_text htmlA <-> l = L2 \/ l = L1) ->
  str_le L1 L2 -> L1 <> L2 ->
  (forall l, l ∉ found_links get_text htmlB) ->
  build_playlist requests_get get_text [A; B] w
  = (Returns [ py "#EXTM3U";
               py "#EXTINF:-1, " ++ name A ++ py " 1" ++ [NL] ++ L1;
               py "#EXTINF:-1, " ++ name A ++ py " 2" ++ [NL] ++ L2 ], w2).
Proof.
  intros HA HB Hlinks Hle Hne Hnone.
  assert (extract_stream_links get_text htmlA = [L1; L2]) as EA.
  { rewrite <- (extract_enumeration get_text htmlA [L1; L2]).
    - apply sorted_id. repeat constructor. done.
    - apply NoDup_cons. split; [|apply NoDup_singleton].
      by intros ?%list_elem_of_singleton.
    - intros l. rewrite Hlinks, !elem_of_cons, elem_of_nil. tauto. }
  assert (extract_stream_links get_text htmlB = []) as EB
    by by apply extract_nil.
  rewrite (build_playlist_pages [A; B] w [htmlA; htmlB] w2)
    by (econstructor; [exact HA|econstructor; [exact HB|constructor]]).
  unfold built, extract_links. simpl zip_with. rewrite EA, EB.
  unfold entries_of, format_playlist_entry. simpl.
  by rewrite <- !(assoc_L (++)).
Qed.

(** C3. The sources before one source are fetched, and the fetch for
    that source raises. Then [build_playlist] raises the same exception
    and returns no entries; the run that builds and then saves raises it
    too and leaves the disk as it was, so nothing is written. [main] is
    that run for [SOURCES] and [PLAYLIST_PATH]. *)
Theorem build_playlist_fail_fast
    (before after : list Source) (source : Source)
    (w w1 w2 : World) (htmls : list (list N)) (e : exn) :
  pages requests_get before w htmls w1 ->
  fetch_html requests_get (url source) 20 w1 = (Raises e, w2) ->
  build_playlist requests_get get_text (before ++ source :: after) w
  = (Raises e, w2)
  /\ (forall path disk,
        (let* entries :=
           on_network (build_playlist requests_get get_text
                         (before ++ source :: after)) in
         on_disk (save_playlist entries path)) (w, disk)
        = (Raises e, (w2, disk)))
  /\ (SOURCES = before ++ source :: after ->
      forall disk,
        main requests_get get_text (w, disk) = (Raises e, (w2, disk))).
Proof.
  intros Hp Hf.
  assert (build_playlist requests_get get_text (before ++ source :: after) w
          = (Raises e, w2)) as E
    by (unfold build_playlist; by eapply build_loop_raises).
  split; [done|]. split.
  - intros path disk. unfold bind, on_network. by rewrite E.
  - intros HS disk. unfold main, bind, on_network. by rewrite HS, E.
Qed.

(** C8. When the pages fetched for the sources yield no link (and so
    when there is no source at all), [build_playlist] returns the header
    alone, and saving it writes the header and one line feed. *)
Theorem build_playlist_header_only
    (sources : list Source) (w w' : World) (htmls : list (list N)) :
  pages requests_get sources w htmls w' ->
  Forall (fun html => extract_stream_links get_text html = []) htmls ->
  build_playlist requests_get get_text sources w = (Returns [py "#EXTM3U"], w')
  /\ build_playlist requests_get get_text [] w = (Returns [py "#EXTM3U"], w)
  /\ forall path disk,
       (let* _ := save_playlist [py "#EXTM3U"] path in read_text path) disk
       = (Returns (py "#EXTM3U" ++ [NL]), <[path := py "#EXTM3U" ++ [NL]]> disk).
Proof.
  intros Hp Hnone. split; [|split; [done|]].
  - rewrite (build_playlist_pages _ _ _ _ Hp). do 2 f_equal.
    clear Hp. unfold built, extract_links.
    revert sources; induction Hnone as [|html htmls E _ IH]; intros [|s ss];
      simpl; try done.
    rewrite E. simpl. apply IH.
  - intros path disk. unfold bind, save_playlist, write_text, read_text.
    match goal with |- context [utf8_encode ?s] =>
      replace (utf8_encode s) with (Some s) by (vm_compute; reflexivity)
    end.
    rewrite lookup_insert_eq.
    match goal with |- context [utf8_decode ?s] =>
      replace (utf8_decode s) with (Some s) by (vm_compute; reflexivity)
    end.
    reflexivity.
Qed.

Lemma newlines_built (sources : list Source) (htmls : list (list N)) :
  Forall (fun source => NL ∉ name source) sources ->
  Forall (fun entry => newlines entry = 1%nat) (built get_text sources htmls).
Proof.
  intros H. revert htmls; induction H as [|s ss Hs _ IH]; intros [|html htmls];
    unfold built; simpl; try by constructor.
  apply Forall_app. split; [|apply IH].
  apply newlines_entries_of; [done|]. apply Forall_forall.
  intros l. apply extract_url_text.
Qed.

(** C10, as the code has it. No string [extract_stream_links] returns
    holds white space, a line feed or a quote. When no source has a line
    feed in its name, every entry [build_playlist] returns after the
    header holds exactly one line feed: it is a block of two lines. *)
Theorem playlist_entries_two_lines
    (sources : list Source) (w w' : World) (entries : list (list N)) :
  Forall (fun source => NL ∉ name source) sources ->
  build_playlist requests_get get_text sources w = (Returns entries, w') ->
  (forall html l c,
     l ∈ extract_stream_links get_text html -> c ∈ l ->
     is_space c = false /\ c <> NL /\ c <> QUOTE /\ c <> DQUOTE)
  /\ exists body,
       entries = py "#EXTM3U" :: body
       /\ Forall (fun entry => newlines entry = 1%nat) body.
Proof.
  intros Hnames Hbuild. split.
  - intros html l c Hl Hc. apply extract_url_text in Hl.
    unfold url_text in Hl. rewrite Forall_forall in Hl. specialize (Hl _ Hc).
    unfold url_char in Hl.
    rewrite negb_true_iff, !orb_false_iff, !N.eqb_neq in Hl.
    destruct Hl as [[Hsp ?] ?]. repeat split; try done.
    intros ->. done.
  - apply build_loop_returns in Hbuild as (htmls & _ & ->).
    eexists. split; [done|]. by apply newlines_built.
Qed.

End Building.

(** ** The theorems at work *)

(** The links of two sources: the second link of the page comes first in
    the playlist. *)
Lemma build_playlist_two_sources_example :
  build_playlist (served two_sources_site) strip_markup [SOURCE_A; SOURCE_B] tt
  = (Returns [ py "#EXTM3U";
               py "#EXTINF:-1, A 1" ++ [NL] ++ FIRST;
               py "#EXTINF:-1, A 2" ++ [NL] ++ SECOND ], tt).
Proof.
  apply (build_playlist_two_sources (served two_sources_site) strip_markup
           SOURCE_A SOURCE_B tt tt tt
           (SECOND ++ py " " ++ FIRST) (py "<p>nothing to see</p>")
           FIRST SECOND).
  - reflexivity.
  - reflexivity.
  - intros l.
    replace (found_links strip_markup (SECOND ++ py " " ++ FIRST))
      with [SECOND; FIRST; SECOND; FIRST] by (vm_compute; reflexivity).
    rewrite !elem_of_cons, elem_of_nil. tauto.
  - reflexivity.
  - discriminate.
  - intros l.
    replace (found_links strip_markup (py "<p>nothing to see</p>"))
      with (@nil (list N)) by (vm_compute; reflexivity).
    apply not_elem_of_nil.
Defined.

(** [SOURCES] when the second site answers 404: [main] raises and the
    disk stays empty. *)
Lemma main_fails_on_second_source :
  main (served bongo_missing_site) strip_markup (tt, ∅)
  = (Raises (HTTPError 404), (tt, ∅)).
Proof.
  destruct (build_playlist_fail_fast (served bongo_missing_site) strip_markup
              [{| name := py "Toffee"; url := py "https://toffeelive.com/en/live" |}]
              []
              {| name := py "Bongo"; url := py "https://example.com/bongo" |}
              tt tt tt [py "<p>" ++ LINK_B ++ py " </p>"] (HTTPError 404))
    as (_ & _ & Hmain).
  - econstructor; [reflexivity|constructor].
  - reflexivity.
  - apply Hmain. reflexivity.
Defined.

(** A link in running text has the second shape. *)
Lemma extract_stream_links_shapes_example :
  py "http://x/live" ∈ extract_stream_links strip_markup (py "see http://x/live now")
  /\ (shape_m3u8 (py "http://x/live") \/ shape_segment (py "http://x/live")).
Proof.
  assert (py "http://x/live"
          ∈ extract_stream_links strip_markup (py "see http://x/live now")) as H.
  { replace (extract_stream_links strip_markup (py "see http://x/live now"))
      with [py "http://x/live"] by (vm_compute; reflexivity).
    left. }
  split; [exact H|].
  exact (extract_stream_links_shapes strip_markup _ _ H).
Defined.

(** C4, a counterexample to the sentence as the specification has it: a
    link is returned, whatever the rendering, that has no [.m3u8] in it
    and in which neither [stream] nor [live] is a segment of the path;
    [/live] is the start of a word of the query string. *)
Lemma link_without_path_segment :
  (forall get_text,
     QUERY_LINK ∈ extract_stream_links get_text (py "see " ++ QUERY_LINK ++ py " now"))
  /\ ~ shape_m3u8 QUERY_LINK
  /\ path_segment (py "stream") QUERY_LINK = false
  /\ path_segment (py "live") QUERY_LINK = false.
Proof.
  split; [|split; [|split; reflexivity]].
  - intros get_text. apply (found_in_html get_text pattern_segment).
    + right; left.
    + replace (findall pattern_segment (py "see " ++ QUERY_LINK ++ py " now"))
        with [QUERY_LINK] by (vm_compute; reflexivity).
      left.
  - intros (scheme & host & ext & tail & E & _ & _ & _ & Hext & _).
    assert (46 ∈ QUERY_LINK) as Hdot.
    { rewrite E, !elem_of_app. right; right; left.
      destruct (Forall2_lookup_l _ _ _ 0%nat 46 Hext eq_refl) as (ch & Hch & Hlit).
      apply N.eqb_eq in Hlit as ->. by eapply list_elem_of_lookup_2. }
    revert Hdot. apply (bool_decide_unpack (46 ∉ QUERY_LINK)). by vm_compute.
Qed.

(** C5, a counterexample to the sentence as the specification has it:
    the server answers 304, which is not a 2xx status, and [fetch_html]
    returns the body. *)
Lemma fetch_html_returns_not_modified :
  fetch_html (served not_modified_site) (py "http://a.example/") 20 tt
  = (Returns (py ""), tt)
  /\ ~ (200 <= 304 < 300)%Z.
Proof. split; [reflexivity|lia]. Qed.

(** The two links, each in the [href] attribute of a tag. *)
Lemma extract_two_links_in_attributes :
  extract_stream_links strip_markup ATTRIBUTES_PAGE = [LINK_A; LINK_B].
Proof.
  apply (extract_stream_links_two_links strip_markup ATTRIBUTES_PAGE).
  - intros text tok Ht Htok.
    rewrite !elem_of_cons, elem_of_nil in Ht. destruct Ht as [->|[->|[]]].
    + vm_compute in Htok.
      repeat (apply elem_of_cons in Htok as [->|Htok];
              [first [ by left | by (right; left)
                     | right; right; by apply no_match_no_colon ]|]).
      by apply elem_of_nil in Htok.
    + vm_compute in Htok.
      repeat (apply elem_of_cons in Htok as [->|Htok];
              [right; right; by apply no_match_no_colon|]).
      by apply elem_of_nil in Htok.
  - exists ATTRIBUTES_PAGE. split; [left|].
    apply (bool_decide_unpack _). by vm_compute.
  - exists ATTRIBUTES_PAGE. split; [left|].
    apply (bool_decide_unpack _). by vm_compute.
Defined.

(** C7, a counterexample to the sentence as the specification has it:
    the page holds the two links, each in a paragraph; the closing tag
    that follows a link is made of characters of the bracketed set, so
    the match in the raw text runs on to the end of the page and a third
    string is returned, whatever the rendering. *)
Lemma extract_links_in_paragraphs :
  substring LINK_A PARAGRAPHS_PAGE
  /\ substring LINK_B PARAGRAPHS_PAGE
  /\ extract_stream_links strip_markup PARAGRAPHS_PAGE
     = [LINK_A; LINK_A ++ py "</p><p>" ++ LINK_B ++ py "</p>"; LINK_B]
  /\ forall get_text,
       extract_stream_links get_text PARAGRAPHS_PAGE <> [LINK_A; LINK_B].
Proof.
  split; [|split; [|split]].
  - by exists (py "<p>"), (py "</p><p>" ++ LINK_B ++ py "</p>").
  - exists (py "<p>" ++ LINK_A ++ py "</p><p>"), (py "</p>").
    by vm_compute.
  - by vm_compute.
  - intros get_text E.
    assert (LINK_A ++ py "</p><p>" ++ LINK_B ++ py "</p>"
            ∈ extract_stream_links get_text PARAGRAPHS_PAGE) as Hin.
    { apply (found_in_html get_text pattern_m3u8); [left|].
      replace (findall pattern_m3u8 PARAGRAPHS_PAGE)
        with [LINK_A ++ py "</p><p>" ++ LINK_B ++ py "</p>"]
        by (vm_compute; reflexivity).
      left. }
    rewrite E, !elem_of_cons, elem_of_nil in Hin.
    by destruct Hin as [?|[?|[]]].
Qed.

(** [SOURCES] when both pages hold no link. *)
Lemma build_playlist_header_only_example :
  build_playlist (served empty_pages_site) strip_markup SOURCES tt
  = (Returns [py "#EXTM3U"], tt).
Proof.
  apply (build_playlist_header_only (served empty_pages_site) strip_markup
           SOURCES tt tt [HELLO_PAGE; py ""]).
  - econstructor; [reflexivity|]. econstructor; [reflexivity|]. constructor.
  - repeat constructor.
Defined.

(** The page of the specification: no link in it. *)
Lemma extract_hello_page : extract_stream_links strip_markup HELLO_PAGE = [].
Proof.
  apply (extract_stream_links_no_match strip_markup HELLO_PAGE);
    by apply no_match_no_colon.
Defined.

(** [SOURCES] when both pages hold the two links: four entries of two
    lines each. *)
Lemma playlist_entries_two_lines_example :
  exists body,
    [ py "#EXTM3U";
      py "#EXTINF:-1, Toffee 1" ++ [NL] ++ LINK_A;
      py "#EXTINF:-1, Toffee 2" ++ [NL] ++ LINK_B;
      py "#EXTINF:-1, Bongo 1" ++ [NL] ++ LINK_A;
      py "#EXTINF:-1, Bongo 2" ++ [NL] ++ LINK_B ] = py "#EXTM3U" :: body
    /\ Forall (fun entry => newlines entry = 1%nat) body.
Proof.
  refine (proj2 (playlist_entries_two_lines (served two_links_site) strip_markup
                   SOURCES tt tt _ _ _)).
  - repeat constructor; apply (bool_decide_unpack _); by vm_compute.
  - by vm_compute.
Defined.

(** C10, a counterexample to the sentence as the specification has it:
    the name of the source holds a line feed, and each entry built for
    its links holds two. *)
Lemma entry_with_newline_in_name :
  build_playlist (served two_sources_site) strip_markup [SOURCE_TWO_LINES] tt
  = (Returns [ py "#EXTM3U";
               py "#EXTINF:-1, A" ++ [NL] ++ py "B 1" ++ [NL] ++ FIRST;
               py "#EXTINF:-1, A" ++ [NL] ++ py "B 2" ++ [NL] ++ SECOND ], tt)
  /\ newlines (py "#EXTINF:-1, A" ++ [NL] ++ py "B 1" ++ [NL] ++ FIRST) = 2%nat.
Proof. split; by vm_compute. Qed.

(** * Further properties of the program *)

(** ** The matcher finds every match *)

Lemma rep_complete p m s' k :
  Forall (fun c => p c = true) m -> is_Some (k s') -> is_Some (rep p (m ++ s') k).
Proof.
  intros Hm Hk. induction Hm as [|c m Hc _ IH]; simpl.
  - destruct s' as [|c s']; simpl; [done|].
    destruct (p c); [|done]. by destruct (rep p s' k).
  - rewrite Hc. by destruct IH as [x ->].
Qed.

Lemma bt_complete r m s' k :
  lang r m -> is_Some (k s') -> is_Some (bt r (m ++ s') k).
Proof.
  revert m s' k.
  induction r as [|p|r1 IH1 r2 IH2|r1 IH1 r2 IH2|r1 IH1|p];
    simpl; intros m s' k L Hk.
  - by subst.
  - destruct L as (c & -> & Hc). simpl. rewrite Hc.
    by apply fmap_is_Some.
  - destruct L as (m1 & m2 & -> & L1 & L2). rewrite <- (assoc_L (++)).
    apply IH1; [done|]. by apply IH2.
  - destruct L as [L|L].
    + by destruct (IH1 _ _ _ L Hk) as [x ->].
    + destruct (bt r1 (m ++ s') k); [done|]. by apply IH2.
  - destruct L as [->|L].
    + simpl. by destruct (bt r1 s' k).
    + by destruct (IH1 _ _ _ L Hk) as [x ->].
  - by apply rep_complete.
Qed.

Lemma match_at_complete r m rest : lang r m -> is_Some (match_at r (m ++ rest)).
Proof. intros L. by apply bt_complete. Qed.

Lemma scan_complete r skip pre m post :
  lang r m -> (skip <= length pre)%nat -> scan r skip (pre ++ m ++ post) <> [].
Proof.
  intros L. revert skip; induction pre as [|c pre IH]; intros skip Hskip.
  - simpl in Hskip. assert (skip = 0%nat) as -> by lia. simpl app.
    destruct (match_at_complete r m post L) as [x Hx].
    destruct (m ++ post); simpl; by rewrite Hx.
  - simpl app. destruct skip as [|n]; simpl.
    + destruct (match_at r (c :: pre ++ m ++ post)); [done|]. apply IH. lia.
    + apply IH. simpl in Hskip. lia.
Qed.

Lemma findall_complete pattern text m :
  lang pattern m -> substring m text -> findall pattern text <> [].
Proof. intros L (pre & post & ->). apply scan_complete; [done|lia]. Qed.

(** ** A match runs to the end of its run of characters *)

Lemma rep_greedy p s m :
  rep p s (fun _ => Some []) = Some m ->
  exists rest, s = m ++ rest /\ forall d, head rest = Some d -> p d = false.
Proof.
  revert m; induction s as [|c s IH]; simpl; intros m.
  - intros [= <-]. by exists [].
  - destruct (p c) eqn:Hc.
    + destruct (rep p s (fun _ => Some [])) as [m'|] eqn:E.
      * intros [= <-]. destruct (IH _ eq_refl) as (rest & -> & ?).
        by exists rest.
      * destruct (rep_complete p [] s (fun _ => Some [])) as [x Hx]; [done..|].
        simpl in Hx. congruence.
    + intros [= <-]. exists (c :: s). split; [done|]. by intros d [= <-].
Qed.

Lemma bt_Cat r1 r2 s k m :
  bt (Cat r1 r2) s k = Some m ->
  exists m1 m2 s', s = m1 ++ s' /\ bt r2 s' k = Some m2 /\ m = m1 ++ m2.
Proof.
  simpl. intros (m1 & m2 & s' & -> & _ & H & ->)%bt_sound. eauto 6.
Qed.

Lemma url_head_greedy X s m :
  match_at (url_head (Cat X (Rep url_char))) s = Some m ->
  exists rest, s = m ++ rest /\ delimited rest.
Proof.
  unfold match_at, url_head.
  intros (m1 & ? & s1 & -> & (m2 & ? & s2 & -> & (m3 & ? & s3 & -> &
          (m4 & ? & s4 & -> & (m5 & ? & s5 & -> & (m6 & m7 & s6 & -> & H & ->)%bt_Cat
          & ->)%bt_Cat & ->)%bt_Cat & ->)%bt_Cat & ->)%bt_Cat & ->)%bt_Cat.
  simpl in H. apply rep_greedy in H as (rest & -> & Hrest).
  exists rest. split; [|done]. by rewrite <- !(assoc_L (++)).
Qed.

Lemma match_at_greedy pattern s m :
  pattern ∈ STREAM_LINK_PATTERNS -> match_at pattern s = Some m ->
  exists rest, s = m ++ rest /\ delimited rest.
Proof.
  unfold STREAM_LINK_PATTERNS. rewrite !elem_of_cons, elem_of_nil.
  intros [->|[->|[]]].
  - apply url_head_greedy.
  - unfold pattern_segment, match_at, url_head.
    intros (m1 & ? & s1 & -> & (m2 & ? & s2 & -> & (m3 & ? & s3 & -> &
            (m4 & ? & s4 & -> & (m5 & ? & s5 & -> & (m6 & ? & s6 & -> &
            (m7 & m8 & s7 & -> & H & ->)%bt_Cat
            & ->)%bt_Cat & ->)%bt_Cat & ->)%bt_Cat & ->)%bt_Cat & ->)%bt_Cat
            & ->)%bt_Cat.
    simpl in H. apply rep_greedy in H as (rest & -> & Hrest).
    exists rest. split; [|done]. by rewrite <- !(assoc_L (++)).
Qed.

(** Every string [findall] returns is the match at one place of the
    text. *)
Lemma scan_match_at r skip s m :
  m ∈ scan r skip s -> exists pre post, s = pre ++ post /\ match_at r post = Some m.
Proof.
  revert skip; induction s as [|c s IH]; intros skip; simpl.
  - destruct skip; simpl; [|by intros ?%elem_of_nil].
    destruct (match_at r []) as [m'|] eqn:Hm; [|by intros ?%elem_of_nil].
    intros ->%list_elem_of_singleton. by exists [], [].
  - assert (forall n, m ∈ scan r n s ->
              exists pre post, c :: s = pre ++ post /\ match_at r post = Some m) as Hrec.
    { intros n (pre & post & -> & ?)%IH. by exists (c :: pre), post. }
    destruct skip; simpl; [|by apply Hrec].
    destruct (match_at r (c :: s)) as [m'|] eqn:Hm; [|by apply Hrec].
    intros [->|Hin]%elem_of_cons; [|by eapply Hrec].
    by exists [], (c :: s).
Qed.

Lemma match_at_nil pattern :
  pattern ∈ STREAM_LINK_PATTERNS -> match_at pattern [] = None.
Proof.
  unfold STREAM_LINK_PATTERNS. rewrite !elem_of_cons, elem_of_nil.
  by intros [->|[->|[]]].
Qed.

Lemma scan_skip_all r (s : list N) :
  match_at r [] = None -> scan r (length s) s = [].
Proof.
  intros H. induction s as [|c s IH]; simpl; [by rewrite H|done].
Qed.

Lemma delimited_url_text (rest : list N) :
  delimited rest -> url_text rest -> rest = [].
Proof.
  destruct rest as [|d rest]; [done|]. intros Hd Hu.
  specialize (Hd d eq_refl). apply Forall_cons in Hu as [Hu _]. congruence.
Qed.

Lemma scan_run pattern skip (tok : list N) :
  pattern ∈ STREAM_LINK_PATTERNS -> url_text tok ->
  scan pattern skip tok = []
  \/ exists pre m, tok = pre ++ m /\ scan pattern skip tok = [m].
Proof.
  intros Hp. revert skip; induction tok as [|c tok IH]; intros skip Hu.
  - destruct skip; simpl; [|by left]. rewrite match_at_nil by done. by left.
  - apply Forall_cons in Hu as [Hc Hu].
    assert (forall n, scan pattern n tok = []
              \/ exists pre m, c :: tok = pre ++ m /\ scan pattern n tok = [m]) as Hrec.
    { intros n. destruct (IH n Hu) as [?|(pre & m & -> & ?)]; [by left|].
      right. by exists (c :: pre), m. }
    destruct skip; simpl; [|apply Hrec].
    destruct (match_at pattern (c :: tok)) as [m|] eqn:Hm; [|apply Hrec].
    right. exists [], m.
    destruct (match_at_greedy _ _ _ Hp Hm) as (rest & E & Hd).
    assert (rest = []) as ->.
    { apply delimited_url_text; [done|].
      assert (url_text (m ++ rest)) as Hall by (rewrite <- E; by constructor).
      by apply Forall_app in Hall as [_ ?]. }
    rewrite (right_id_L [] (++)) in E. subst m. split; [done|].
    simpl. by rewrite scan_skip_all by by apply match_at_nil.
Qed.

Section MoreExtraction.

Variable get_text : list N -> list N -> list N.

(** X1. [extract_stream_links] returns the empty list exactly when
    neither the HTML text nor its plain-text rendering holds a piece
    that a pattern matches: a link that is there is never missed. *)
Theorem extract_stream_links_empty_iff (html : list N) :
  extract_stream_links get_text html = []
  <-> no_match html /\ no_match (get_text html (py " ")).
Proof.
  split.
  - intros E.
    assert (forall text pattern,
              text ∈ [html; get_text html (py " ")] ->
              pattern ∈ STREAM_LINK_PATTERNS -> findall pattern text = []) as Hnone.
    { intros text pattern Ht Hp.
      destruct (findall pattern text) as [|l ls] eqn:El; [done|].
      assert (l ∈ extract_stream_links get_text html) as Hin.
      { apply elem_of_extract, elem_of_found_links.
        exists text, pattern. rewrite El. repeat split; [done..|left]. }
      rewrite E in Hin. by apply elem_of_nil in Hin. }
    split; intros pattern m Hp Hsub L;
      eapply (findall_complete pattern); try done; apply Hnone; try done.
    + left.
    + right; left.
  - intros [H1 H2]. apply extract_nil. intros l.
    rewrite elem_of_found_links. intros (text & pattern & Ht & Hp & Hl).
    rewrite !elem_of_cons, elem_of_nil in Ht.
    destruct Ht as [->|[->|[]]];
      rewrite findall_no_match in Hl by done; by apply elem_of_nil in Hl.
Qed.

(** X2. Every string [extract_stream_links] returns stands as it is in
    the HTML text or in its plain-text rendering, and runs there to the
    end of the text or to the next white space or quote: the link is
    never cut short, trimmed or rewritten. *)
Theorem extract_stream_links_verbatim (html l : list N) :
  l ∈ extract_stream_links get_text html ->
  exists text pre post,
    text ∈ [html; get_text html (py " ")]
    /\ text = pre ++ l ++ post /\ delimited post.
Proof.
  rewrite elem_of_extract, elem_of_found_links.
  intros (text & pattern & Ht & Hp & (pre & post & -> & Hm)%scan_match_at).
  destruct (match_at_greedy _ _ _ Hp Hm) as (rest & -> & Hd).
  by exists (pre ++ l ++ rest), pre, rest.
Qed.

End MoreExtraction.

(** X3. In a run of characters without white space or quotes, a pattern
    finds at most one link, and the link is the end of the run: what
    follows a URL up to the next white space or quote becomes part of
    the link. *)
Theorem findall_one_per_run (pattern : regex) (tok : list N) :
  pattern ∈ STREAM_LINK_PATTERNS -> url_text tok ->
  (length (findall pattern tok) <= 1)%nat
  /\ forall m, m ∈ findall pattern tok -> exists pre, tok = pre ++ m.
Proof.
  intros Hp Hu. unfold findall.
  destruct (scan_run pattern 0 tok Hp Hu) as [->|(pre & m & -> & ->)].
  - split; [simpl; lia|]. by intros m ?%elem_of_nil.
  - split; [simpl; lia|]. intros m' ->%list_elem_of_singleton. by exists pre.
Qed.

(** X4. A pattern never matches across white space or a quote: the
    links of a text cut at such a character are the links of the part
    before it followed by the links of the part after it. *)
Theorem findall_splits_at_delimiter (pattern : regex) (t rest : list N) (d : N) :
  pattern ∈ STREAM_LINK_PATTERNS -> url_char d = false ->
  findall pattern (t ++ d :: rest) = findall pattern t ++ findall pattern rest.
Proof. intros Hp Hd. apply findall_delimiter; [by apply tight_patterns|done]. Qed.

(** ** The case of letters *)

Lemma ascii_upper_cases (c : N) :
  (97 <= c <= 122 /\ ascii_upper c = c - 32)
  \/ (~ 97 <= c <= 122 /\ ascii_upper c = c).
Proof.
  unfold ascii_upper.
  destruct (N.leb_spec 97 c), (N.leb_spec c 122); simpl;
    [left|right|right|right]; split; auto; lia.
Qed.

Lemma unicode_tolower_upper (c : N) :
  unicode_tolower (ascii_upper c) = unicode_tolower c.
Proof.
  destruct (ascii_upper_cases c) as [[Hc ->]|[_ ->]]; [|done].
  destruct (unicode_tolower_cases (c - 32)) as [[? ->]|[[? _]|[[? _]|(? & _)]]];
    try lia.
  destruct (unicode_tolower_cases c) as [[? _]|[[? _]|[[? _]|(_ & _ & _ & ->)]]];
    lia.
Qed.

Lemma literal_upper (c ch : N) : literal c (ascii_upper ch) = literal c ch.
Proof.
  unfold literal. destruct (iscased c) eqn:Hc.
  - by rewrite unicode_tolower_upper.
  - destruct (ascii_upper_cases ch) as [[Hch ->]|[_ ->]]; [|done].
    unfold iscased in Hc.
    rewrite orb_false_iff, !andb_false_iff, !N.leb_gt in Hc.
    destruct (N.eqb_spec (ch - 32) c), (N.eqb_spec ch c); try done; lia.
Qed.

Lemma url_char_upper (c : N) : url_char (ascii_upper c) = url_char c.
Proof.
  destruct (ascii_upper_cases c) as [[Hc ->]|[_ ->]]; [|done].
  rewrite (proj2 (url_char_spec (c - 32))) by lia.
  rewrite (proj2 (url_char_spec c)) by lia. done.
Qed.

Lemma blind_lit_list (cs : list N) :
  blind ascii_upper (foldr (fun c r => Cat (Chr (literal c)) r) Eps cs).
Proof.
  induction cs as [|c cs IH]; simpl; [done|]. split; [|done].
  intros ch. apply literal_upper.
Qed.

Lemma blind_patterns pattern :
  pattern ∈ STREAM_LINK_PATTERNS -> blind ascii_upper pattern.
Proof.
  unfold STREAM_LINK_PATTERNS. rewrite !elem_of_cons, elem_of_nil.
  intros [->|[->|[]]]; unfold pattern_m3u8, pattern_segment, url_head;
    simpl blind; repeat split;
    try apply url_char_upper; try apply literal_upper.
Qed.

Lemma rep_fmap (f : N -> N) p (s : list N) (k k' : list N -> option (list N)) :
  (forall c, p (f c) = p c) ->
  (forall s, k' (f <$> s) = fmap (M:=list) f <$> k s) ->
  rep p (f <$> s) k' = fmap (M:=list) f <$> rep p s k.
Proof.
  intros Hp Hk. induction s as [|c s IH].
  - apply (Hk []).
  - rewrite fmap_cons. cbn [rep]. rewrite Hp, IH, <- fmap_cons, Hk.
    destruct (p c); [|done]. by destruct (rep p s k).
Qed.

Lemma bt_fmap (f : N -> N) r (s : list N) (k k' : list N -> option (list N)) :
  blind f r ->
  (forall s, k' (f <$> s) = fmap (M:=list) f <$> k s) ->
  bt r (f <$> s) k' = fmap (M:=list) f <$> bt r s k.
Proof.
  revert s k k'.
  induction r as [|p|r1 IH1 r2 IH2|r1 IH1 r2 IH2|r1 IH1|p];
    simpl; intros s k k' B Hk.
  - apply Hk.
  - destruct s as [|c s]; [done|]. rewrite fmap_cons. rewrite B, Hk.
    destruct (p c); [|done]. by destruct (k s).
  - destruct B. apply IH1; [done|]. intros s'. by apply IH2.
  - destruct B. rewrite (IH1 s k k'), (IH2 s k k') by done.
    by destruct (bt r1 s k).
  - rewrite (IH1 s k k'), Hk by done. by destruct (bt r1 s k).
  - by apply rep_fmap.
Qed.

Lemma match_at_fmap (f : N -> N) r (s : list N) :
  blind f r -> match_at r (f <$> s) = fmap (M:=list) f <$> match_at r s.
Proof. intros B. by apply bt_fmap. Qed.

Lemma scan_fmap (f : N -> N) r skip (s : list N) :
  blind f r -> scan r skip (f <$> s) = fmap (M:=list) f <$> scan r skip s.
Proof.
  intros B. revert skip; induction s as [|c s IH]; intros skip.
  - destruct skip; [|done].
    pose proof (match_at_fmap f r [] B) as E. rewrite fmap_nil in *.
    cbn [scan]. destruct (match_at r []) as [m|]; [|done].
    injection E as E. rewrite fmap_cons, <- E. done.
  - rewrite fmap_cons. destruct skip; cbn [scan]; [|apply IH].
    rewrite <- fmap_cons, (match_at_fmap f r (c :: s) B).
    destruct (match_at r (c :: s)) as [m|]; cbn [fmap option_fmap option_map].
    + rewrite fmap_cons, length_fmap, IH. done.
    + apply IH.
Qed.

(** X5. The patterns do not see the case of the ASCII letters of a
    text: when the letters are turned to upper case, the same links are
    found at the same places, spelled in upper case. *)
Theorem findall_ignores_case (pattern : regex) (text : list N) :
  pattern ∈ STREAM_LINK_PATTERNS ->
  findall pattern (ascii_upper <$> text)
  = fmap (M:=list) ascii_upper <$> findall pattern text.
Proof. intros Hp. apply scan_fmap. by apply blind_patterns. Qed.

(** ** UTF-8 *)








Lemma utf8_encode_char_scalar c : scalar c <-> is_Some (utf8_encode_char c).
Proof.
  unfold scalar, utf8_encode_char.
  destruct (N.ltb_spec c 128); [split; [done|lia]|].
  destruct (N.ltb_spec c 2048); [split; [done|lia]|].
  destruct (N.leb_spec 55296 c), (N.leb_spec c 57343); simpl;
    destruct (N.ltb_spec c 65536); destruct (N.ltb_spec c 1114112);
    split; try done; try lia; intros [? [=]].
Qed.

(** Exactly the texts of scalar values can be encoded. *)
Lemma utf8_encode_scalar s : Forall scalar s <-> is_Some (utf8_encode s).
Proof.
  induction s as [|c s IH]; simpl; [by split|].
  rewrite Forall_cons, utf8_encode_char_scalar, IH.
  rewrite !is_Some_alt. destruct (utf8_encode_char c), (utf8_encode s); tauto.
Qed.

(** ** Saving, in general *)


Lemma elem_of_join (sep : list N) (xs : list (list N)) x c :
  x ∈ xs -> c ∈ x -> c ∈ join sep xs.
Proof.
  intros Hx Hc. induction xs as [|y ys IH]; [by apply elem_of_nil in Hx|].
  simpl. apply elem_of_cons in Hx as [->|Hx].
  - destruct ys; [done|]. rewrite elem_of_app. by left.
  - destruct ys as [|z zs]; [by apply elem_of_nil in Hx|].
    rewrite !elem_of_app. right; right. by apply IH.
Qed.








(** X7. When an entry holds a character that cannot be encoded,
    [save_playlist] raises [UnicodeEncodeError], and the file at the
    path is left empty: what it held before is lost. *)
Theorem save_playlist_unencodable
    (entries : list (list N)) (path : list N) (disk : gmap (list N) (list N))
    (entry : list N) (c : N) :
  entry ∈ entries -> c ∈ entry -> ~ scalar c ->
  save_playlist entries path disk
  = (Raises UnicodeEncodeError, <[path := []]> disk).
Proof.
  intros He Hc Hns. unfold save_playlist, write_text.
  destruct (utf8_encode (join [NL] entries ++ [NL])) as [content|] eqn:E; [|done].
  assert (Forall scalar (join [NL] entries ++ [NL])) as Hall
    by (apply utf8_encode_scalar; by rewrite E).
  rewrite Forall_forall in Hall. destruct Hns. apply Hall.
  rewrite elem_of_app. left. by eapply elem_of_join.
Qed.

Lemma newlines_join_entries (first : list N) (body : list (list N)) :
  Forall (fun entry => newlines entry = 1%nat) body ->
  newlines (join [NL] (first :: body)) = (newlines first + 2 * length body)%nat.
Proof.
  intros H. revert first; induction H as [|y ys Hy _ IH]; intros first.
  - simpl. lia.
  - change (join [NL] (first :: y :: ys)) with (first ++ [NL] ++ join [NL] (y :: ys)).
    rewrite !newlines_app, IH, Hy. simpl length.
    change (newlines [NL]) with 1%nat. lia.
Qed.

Lemma newline_split_inj (a a' b b' : list N) :
  NL ∉ a -> NL ∉ a' -> a ++ NL :: b = a' ++ NL :: b' -> a = a' /\ b = b'.
Proof.
  revert a'; induction a as [|x a IH]; intros [|x' a']; simpl.
  - by intros _ _ [= ->].
  - intros _ Hn [= <- _]. destruct Hn. left.
  - intros Hn _ [= -> _]. destruct Hn. left.
  - rewrite !not_elem_of_cons. intros [_ Ha] [_ Ha'] [= -> E].
    destruct (IH _ Ha Ha' E) as [-> ->]. done.
Qed.

(** X8. An entry tells its name and its URL apart: two entries made
    from names without line feeds are equal only when both the names
    and the URLs are equal. *)
Theorem format_playlist_entry_inj (name1 name2 url1 url2 : list N) :
  NL ∉ name1 -> NL ∉ name2 ->
  format_playlist_entry name1 url1 = format_playlist_entry name2 url2 ->
  name1 = name2 /\ url1 = url2.
Proof.
  intros H1 H2. unfold format_playlist_entry.
  intros E%(inj (app (py "#EXTINF:-1, "))). by apply newline_split_inj.
Qed.

(** ** Building, in general *)

Lemma entries_of_lookup (source : Source) (links : list (list N)) (i : nat) :
  entries_of source links !! i
  = (fun link =>
       format_playlist_entry (name source ++ py " " ++ str_of_int (S i)) link)
    <$> links !! i.
Proof.
  unfold entries_of, enumerate. rewrite list_lookup_fmap, lookup_zip_with.
  destruct (links !! i) as [link|] eqn:El.
  - rewrite lookup_seq_lt by by eapply lookup_lt_Some. done.
  - by destruct (seq 1 (length links) !! i).
Qed.

Lemma length_entries_of (source : Source) (links : list (list N)) :
  length (entries_of source links) = length links.
Proof.
  unfold entries_of, enumerate.
  rewrite length_fmap, length_zip_with, length_seq. lia.
Qed.

Lemma entries_of_NoDup (source : Source) (links : list (list N)) :
  NoDup links -> NoDup (entries_of source links).
Proof.
  rewrite !NoDup_alt. intros Hnd i j e.
  rewrite !entries_of_lookup.
  destruct (links !! i) as [li|] eqn:Ei; [|done].
  destruct (links !! j) as [lj|] eqn:Ej; [|done].
  cbn [fmap option_fmap option_map]. intros Hi Hj.
  assert (format_playlist_entry (name source ++ py " " ++ str_of_int (S i)) li
          = format_playlist_entry (name source ++ py " " ++ str_of_int (S j)) lj)
    as E by congruence.
  unfold format_playlist_entry in E.
  apply (inj (app (py "#EXTINF:-1, "))) in E.
  rewrite <- !(assoc_L (++)) in E.
  apply (inj (app (name source))), (inj (app (py " "))) in E.
  apply newline_split_inj in E as [_ ->]; try apply digits_no_newline.
  by eapply Hnd.
Qed.

Section MoreBuilding.

Context {World : Type}.
Variable requests_get : list N -> Z -> M World Response.
Variable get_text : list N -> list N -> list N.

Lemma pages_length sources w htmls w' :
  pages requests_get sources w htmls w' -> length sources = length htmls.
Proof. induction 1; simpl; auto. Qed.

Lemma pages_app s1 s2 w h1 w1 h2 w2 :
  pages requests_get s1 w h1 w1 -> pages requests_get s2 w1 h2 w2 ->
  pages requests_get (s1 ++ s2) w (h1 ++ h2) w2.
Proof.
  intros H1 H2. induction H1; simpl; [done|]. econstructor; eauto.
Qed.

Lemma built_app s1 s2 h1 h2 :
  length s1 = length h1 ->
  built get_text (s1 ++ s2) (h1 ++ h2)
  = built get_text s1 h1 ++ built get_text s2 h2.
Proof.
  intros Hl. unfold built. rewrite zip_with_app by done. apply join_app.
Qed.

(** X9. The playlist of a list of sources is built source by source:
    when [build_playlist] returns for a first list of sources and, from
    the state of the network it leaves, for a second list, it returns
    for the two lists in a row the header, the entries of the first
    list and the entries of the second. *)
Theorem build_playlist_app
    (s1 s2 : list Source) (w w1 w2 : World) (e1 e2 : list (list N)) :
  build_playlist requests_get get_text s1 w = (Returns (py "#EXTM3U" :: e1), w1) ->
  build_playlist requests_get get_text s2 w1 = (Returns (py "#EXTM3U" :: e2), w2) ->
  build_playlist requests_get get_text (s1 ++ s2) w
  = (Returns (py "#EXTM3U" :: e1 ++ e2), w2).
Proof.
  unfold build_playlist.
  intros (h1 & P1 & [= ->])%build_loop_returns (h2 & P2 & [= ->])%build_loop_returns.
  rewrite (build_loop_pages _ _ _ _ _ _ _ (pages_app _ _ _ _ _ _ _ P1 P2)).
  by rewrite built_app by by eapply pages_length.
Qed.

(** X11. For one source whose page is fetched, [build_playlist] returns
    the header and one entry per link of the page: the entry at place
    [i] (from 0) is made of the name of the source, the number [i + 1]
    and the link at place [i] of the sorted links; no two of these
    entries are equal. *)
Theorem build_playlist_numbering
    (source : Source) (w w' : World) (html : list N) :
  fetch_html requests_get (url source) 20 w = (Returns html, w') ->
  exists body,
    build_playlist requests_get get_text [source] w
    = (Returns (py "#EXTM3U" :: body), w')
    /\ length body = length (extract_stream_links get_text html)
    /\ (forall i link,
          extract_stream_links get_text html !! i = Some link ->
          body !! i
          = Some (format_playlist_entry
                    (name source ++ py " " ++ str_of_int (S i)) link))
    /\ NoDup body.
Proof.
  intros Hf. exists (entries_of source (extract_stream_links get_text html)).
  split; [|split; [apply length_entries_of|split]].
  - rewrite (build_playlist_pages requests_get get_text [source] w [html] w')
      by (econstructor; [done|constructor]).
    unfold built, extract_links. simpl. by rewrite (right_id_L [] (++)).
  - intros i link Hl. by rewrite entries_of_lookup, Hl.
  - apply entries_of_NoDup, extract_NoDup.
Qed.

(** X12. When no source has a line feed in its name, the text
    [save_playlist] writes for the entries [build_playlist] returns has
    one line for the header and two lines for each entry: twice the
    number of entries, less one, line feeds in all. *)
Theorem playlist_line_count
    (sources : list Source) (w w' : World) (entries : list (list N)) :
  Forall (fun source => NL ∉ name source) sources ->
  build_playlist requests_get get_text sources w = (Returns entries, w') ->
  newlines (join [NL] entries ++ [NL]) = (2 * length entries - 1)%nat.
Proof.
  intros Hnames (htmls & _ & ->)%build_loop_returns.
  change ([py "#EXTM3U"] ++ built get_text sources htmls)
    with (py "#EXTM3U" :: built get_text sources htmls).
  rewrite newlines_app.
  rewrite newlines_join_entries by by apply newlines_built.
  change (newlines [NL]) with 1%nat. change (newlines (py "#EXTM3U")) with 0%nat.
  cbn [length]. lia.
Qed.


(** X13. Whatever happens, [main] touches no file other than the
    playlist. *)
Theorem main_writes_playlist_only
    (w w' : World) (disk disk' : gmap (list N) (list N))
    (o : outcome unit) (path : list N) :
  main requests_get get_text (w, disk) = (o, (w', disk')) ->
  path <> PLAYLIST_PATH ->
  disk' !! path = disk !! path.
Proof.
  unfold main, bind, on_network, on_disk, save_playlist, write_text.
  destruct (build_playlist requests_get get_text SOURCES w) as [[entries|e] w1].
  - destruct (utf8_encode (join [NL] entries ++ [NL]));
      intros [= _ _ <-] Hne; by rewrite lookup_insert_ne.
  - by intros [= _ _ <-].
Qed.


End MoreBuilding.

(** ** The further properties at work *)

Lemma extract_stream_links_verbatim_example :
  exists text pre post,
    text ∈ [py "see http://x/live now";
            strip_markup (py "see http://x/live now") (py " ")]
    /\ text = pre ++ py "http://x/live" ++ post /\ delimited post.
Proof.
  apply (extract_stream_links_verbatim strip_markup (py "see http://x/live now")).
  replace (extract_stream_links strip_markup (py "see http://x/live now"))
    with [py "http://x/live"] by (vm_compute; reflexivity).
  left.
Defined.

Lemma findall_one_per_run_example :
  (length (findall pattern_m3u8 (py "x=http://a/b.m3u8</p>")) <= 1)%nat
  /\ forall m, m ∈ findall pattern_m3u8 (py "x=http://a/b.m3u8</p>") ->
               exists pre, py "x=http://a/b.m3u8</p>" = pre ++ m.
Proof.
  apply (findall_one_per_run pattern_m3u8 (py "x=http://a/b.m3u8</p>")).
  - left.
  - apply (bool_decide_unpack _). by vm_compute.
Defined.

Lemma findall_splits_at_delimiter_example :
  findall pattern_segment (py "http://x/live" ++ 32 :: py "http://y/stream")
  = findall pattern_segment (py "http://x/live")
    ++ findall pattern_segment (py "http://y/stream").
Proof.
  apply (findall_splits_at_delimiter pattern_segment).
  - right; left.
  - reflexivity.
Defined.

Lemma findall_ignores_case_example :
  findall pattern_segment (ascii_upper <$> MIXED_TEXT)
  = fmap (M:=list) ascii_upper <$> findall pattern_segment MIXED_TEXT.
Proof. apply (findall_ignores_case pattern_segment MIXED_TEXT). right; left. Defined.


(** An entry with a carriage return does not read back as it was
    written: the carriage return comes back as a line feed. *)
Lemma save_playlist_carriage_return :
  (let* _ := save_playlist [[97; CR; 98]] PLAYLIST_PATH in
   read_text PLAYLIST_PATH) ∅
  = (Returns [97; NL; 98; NL], {[ PLAYLIST_PATH := [97; CR; 98; NL] ]}).
Proof. by vm_compute. Qed.

Lemma save_playlist_unencodable_example :
  save_playlist [py "#EXTM3U"; [SURROGATE]] PLAYLIST_PATH
    {[ PLAYLIST_PATH := py "old" ]}
  = (Raises UnicodeEncodeError, <[PLAYLIST_PATH := []]> {[ PLAYLIST_PATH := py "old" ]}).
Proof.
  apply (save_playlist_unencodable _ _ _ [SURROGATE] SURROGATE).
  - right; left.
  - left.
  - unfold scalar, SURROGATE. lia.
Defined.

Lemma format_playlist_entry_inj_example :
  py "Toffee 1" = py "Toffee 1" /\ LINK_A = LINK_A.
Proof.
  apply (format_playlist_entry_inj (py "Toffee 1") (py "Toffee 1") LINK_A LINK_A).
  - apply (bool_decide_unpack _). by vm_compute.
  - apply (bool_decide_unpack _). by vm_compute.
  - reflexivity.
Defined.

Lemma build_playlist_app_example :
  build_playlist (served two_sources_site) strip_markup ([SOURCE_A] ++ [SOURCE_B]) tt
  = (Returns (py "#EXTM3U"
              :: [ py "#EXTINF:-1, A 1" ++ [NL] ++ FIRST;
                   py "#EXTINF:-1, A 2" ++ [NL] ++ SECOND ] ++ []), tt).
Proof.
  apply (build_playlist_app (served two_sources_site) strip_markup
           [SOURCE_A] [SOURCE_B] tt tt tt); by vm_compute.
Defined.

Lemma build_playlist_numbering_example :
  exists body,
    build_playlist (served two_sources_site) strip_markup [SOURCE_A] tt
    = (Returns (py "#EXTM3U" :: body), tt)
    /\ length body
       = length (extract_stream_links strip_markup (SECOND ++ py " " ++ FIRST))
    /\ (forall i link,
          extract_stream_links strip_markup (SECOND ++ py " " ++ FIRST) !! i
          = Some link ->
          body !! i
          = Some (format_playlist_entry
                    (name SOURCE_A ++ py " " ++ str_of_int (S i)) link))
    /\ NoDup body.
Proof.
  apply (build_playlist_numbering (served two_sources_site) strip_markup
           SOURCE_A tt tt).
  reflexivity.
Defined.

Lemma playlist_line_count_example :
  newlines (join [NL]
              [ py "#EXTM3U";
                py "#EXTINF:-1, Toffee 1" ++ [NL] ++ LINK_A;
                py "#EXTINF:-1, Toffee 2" ++ [NL] ++ LINK_B;
                py "#EXTINF:-1, Bongo 1" ++ [NL] ++ LINK_A;
                py "#EXTINF:-1, Bongo 2" ++ [NL] ++ LINK_B ] ++ [NL])
  = (2 * 5 - 1)%nat.
Proof.
  apply (playlist_line_count (served two_links_site) strip_markup SOURCES tt tt).
  - repeat constructor; apply (bool_decide_unpack _); by vm_compute.
  - by vm_compute.
Defined.

Lemma main_writes_playlist_only_example :
  (<[PLAYLIST_PATH := py "#EXTM3U" ++ [NL]]> {[ py "notes.txt" := py "keep" ]}
   : gmap (list N) (list N)) !! py "notes.txt"
  = ({[ py "notes.txt" := py "keep" ]} : gmap (list N) (list N)) !! py "notes.txt".
Proof.
  apply (main_writes_playlist_only (served empty_pages_site) strip_markup
           tt tt _ _ (Returns tt)).
  - by vm_compute.
  - discriminate.
Defined.


(** ** A match that only the rendering holds *)

(** A text in which the matcher finds nothing holds no match. *)
Lemma findall_nil_no_match (text : list N) :
  findall pattern_m3u8 text = [] -> findall pattern_segment text = [] ->
  no_match text.
Proof.
  intros H1 H2 pattern m Hp Hm L.
  unfold STREAM_LINK_PATTERNS in Hp.
  rewrite !elem_of_cons, elem_of_nil in Hp.
  destruct Hp as [->|[->|[]]]; by eapply findall_complete.
Qed.

(** C9, a counterexample to the sentence as the specification has it:
    the slashes of this page are written as character references, so no
    piece of the HTML text is matched by either pattern; its plain-text
    rendering holds the slashes themselves, and [extract_stream_links]
    returns the link found there. *)
Lemma extract_references_page :
  no_match REFERENCES_PAGE
  /\ plain_text REFERENCES_PAGE (py " ") = py "http://x/live"
  /\ extract_stream_links plain_text REFERENCES_PAGE = [py "http://x/live"].
Proof.
  split; [|split].
  - apply findall_nil_no_match; by vm_compute.
  - by vm_compute.
  - by vm_compute.
Qed.
